(** * Admission control of the traffic simulation: a shallow embedding

    The development follows the C++ sources:
    - [MessageQueue<T>] and [TrafficLight] (TrafficLight.h, TrafficLight.cpp),
    - [WaitingVehicles] and [Intersection] (Intersection.cpp).

    Every member function that runs under a [lock_guard] is one atomic
    state transformer.  A call that blocks (condition variable, future,
    mutex) is a transformer that is not enabled: it returns [None].
    Calls whose behaviour the C++ standard leaves undefined, or that
    throw, return an explicit [outcome].

    The threads of the program (the vehicles inside
    [addVehicleToQueue], the dispatch loop [processVehicleQueue], the
    scheduler [cycleThroughPhases]) are interleaved by a step function
    on one [System] state; what a thread reads from outside (the clock,
    the random draws) is an input of its step. *)

From stdpp Require Import base option list gmap strings.
From Stdlib Require Import ZArith Lia Ascii DecimalString DecimalZ DecimalPos.

Open Scope Z_scope.

(** ** Phases (TrafficLight.h, [enum class TrafficLightPhase]) *)

Inductive TrafficLightPhase : Set :=
  | red
  | green.

#[global] Instance TrafficLightPhase_eq_dec : EqDecision TrafficLightPhase.
Proof. solve_decision. Defined.

(** ** MessageQueue<T> (TrafficLight.h)

    The object is its [_queue]; [_mutex] and [_condition] only make
    [send] and [receive] atomic and make [receive] wait, which is what
    the two definitions below say. *)

Module MessageQueue.
Section WithT.
Context {T : Type}.

Record t : Type := Build { _queue : list T }.

(** [_queue.push_back(std::move(msg)); _condition.notify_one();] *)
Definition send (msg : T) (mq : t) : t :=
  {| _queue := _queue mq ++ [msg] |}.

(** [_condition.wait(lock, [this]{ return !_queue.empty(); })], then
    [front()] and [pop_front()].  [None]: the predicate is false and
    the caller stays blocked, the queue untouched. *)
Definition receive (mq : t) : option (T * t) :=
  match _queue mq with
  | [] => None
  | msg :: rest => Some (msg, {| _queue := rest |})
  end.

(** [n] calls of [receive] in a row by the consumer, oldest first. *)
Fixpoint receive_n (n : nat) (mq : t) : option (list T * t) :=
  match n with
  | O => Some ([], mq)
  | S k =>
      match receive mq with
      | None => None
      | Some (msg, mq') =>
          match receive_n k mq' with
          | None => None
          | Some (msgs, mq'') => Some (msg :: msgs, mq'')
          end
      end
  end.

(** The producer sending a batch, first element first. *)
Definition send_all (msgs : list T) (mq : t) : t :=
  foldl (fun q m => send m q) mq msgs.

End WithT.
Arguments t : clear implicits.
End MessageQueue.

(** ** TrafficLight (TrafficLight.h, TrafficLight.cpp) *)

Record TrafficLight : Type := {
  _currentPhase : TrafficLightPhase;
  _messageQueue : MessageQueue.t TrafficLightPhase
}.

(** [TrafficLight::TrafficLight()] *)
Definition TrafficLight_new : TrafficLight :=
  {| _currentPhase := red; _messageQueue := MessageQueue.Build [] |}.

(** The traffic light with phase [cur] and buffered values [q]. *)
Definition light (cur : TrafficLightPhase) (q : list TrafficLightPhase)
    : TrafficLight :=
  {| _currentPhase := cur; _messageQueue := MessageQueue.Build q |}.

Definition getCurrentPhase (tl : TrafficLight) : TrafficLightPhase :=
  _currentPhase tl.

Definition set_messageQueue (mq : MessageQueue.t TrafficLightPhase)
    (tl : TrafficLight) : TrafficLight :=
  {| _currentPhase := _currentPhase tl; _messageQueue := mq |}.

(** One turn of the [while (true)] loop of [TrafficLight::waitForGreen]:
    [receive()], then [return] on green.  The boolean tells whether the
    function returned.  [None]: blocked inside [receive()]. *)
Definition waitForGreen_iter (tl : TrafficLight)
    : option (TrafficLightPhase * bool * TrafficLight) :=
  match MessageQueue.receive (_messageQueue tl) with
  | None => None
  | Some (phase, mq') =>
      Some (phase, bool_decide (phase = green), set_messageQueue mq' tl)
  end.

(** How a call of [waitForGreen] stands once the values that the channel
    holds are used up: it has returned, or it is blocked in [receive()]
    on the empty channel.  Both carry the values received so far, in
    order, and the traffic light they leave behind. *)
Inductive wait_result : Type :=
  | Returned (received : list TrafficLightPhase) (tl : TrafficLight)
  | Blocked (received : list TrafficLightPhase) (tl : TrafficLight).

Definition received_cons (ph : TrafficLightPhase) (r : wait_result) : wait_result :=
  match r with
  | Returned l tl => Returned (ph :: l) tl
  | Blocked l tl => Blocked (ph :: l) tl
  end.

(** The loop of [waitForGreen] over the buffered values [q]. *)
Fixpoint waitForGreen_loop (cur : TrafficLightPhase)
    (q : list TrafficLightPhase) : wait_result :=
  match q with
  | [] => Blocked [] {| _currentPhase := cur; _messageQueue := MessageQueue.Build [] |}
  | phase :: rest =>
      if bool_decide (phase = green)
      then Returned [phase]
             {| _currentPhase := cur; _messageQueue := MessageQueue.Build rest |}
      else received_cons phase (waitForGreen_loop cur rest)
  end.

Definition waitForGreen (tl : TrafficLight) : wait_result :=
  waitForGreen_loop (_currentPhase tl) (MessageQueue._queue (_messageQueue tl)).

(** Lines 108-111 of [Intersection::addVehicleToQueue]:
    [if (_trafficLight.getCurrentPhase() == red) _trafficLight.waitForGreen();] *)
Definition check_then_wait (tl : TrafficLight) : wait_result :=
  if bool_decide (getCurrentPhase tl = red)
  then waitForGreen tl
  else Returned [] tl.

(** ** Promises and futures

    A [std::promise<void>] and the [std::future<void>] taken from it
    share one state, which is pending or ready.  A promise is named by
    the key of its shared state; [_promises] owns the promise objects
    (they are moved in), the waiting thread keeps the future.  Next to
    the shared states the store keeps, as ghost data, the order in which
    [set_value] succeeded. *)

Definition promise : Set := nat.

Record PromiseStore : Type := {
  shared : gmap nat bool;          (* true: ready *)
  set_value_log : list promise
}.

Inductive future_errc : Set :=
  | promise_already_satisfied
  | no_state.

Inductive outcome (A : Type) : Type :=
  | Done (a : A)
  | Throws (e : future_errc)
  | Undefined.
Arguments Done {A} a.
Arguments Throws {A} e.
Arguments Undefined {A}.

(** [std::promise<void>::set_value()] *)
Definition set_value (p : promise) (st : PromiseStore) : outcome PromiseStore :=
  match shared st !! p with
  | None => Throws no_state
  | Some true => Throws promise_already_satisfied
  | Some false =>
      Done {| shared := <[p := true]> (shared st);
              set_value_log := set_value_log st ++ [p] |}
  end.

(** [std::promise<void> prms; prms.get_future()]: a new pending state. *)
Definition new_promise (st : PromiseStore) : promise * PromiseStore :=
  let p := fresh (dom (shared st)) in
  (p, {| shared := <[p := false]> (shared st);
         set_value_log := set_value_log st |}).

(** [std::future<void>::wait()] returns when the state is ready. *)
Definition future_ready (p : promise) (st : PromiseStore) : bool :=
  bool_decide (shared st !! p = Some true).

(** ** WaitingVehicles (Intersection.cpp)

    A [std::shared_ptr<Vehicle>] is the identity of the vehicle it
    points to. *)

Definition Vehicle : Set := nat.

Record WaitingVehicles : Type := {
  _vehicles : list Vehicle;
  _promises : list promise
}.

Definition WaitingVehicles_new : WaitingVehicles :=
  {| _vehicles := []; _promises := [] |}.

(** Conversion of [size_t] to the [int] that [getSize] returns. *)
Definition INT_MAX : Z := 2147483647.

Definition int_of_size (n : nat) : Z :=
  (Z.of_nat n + 2 ^ 31) mod 2 ^ 32 - 2 ^ 31.

Definition getSize (w : WaitingVehicles) : Z :=
  int_of_size (length (_vehicles w)).

Definition pushBack (vehicle : Vehicle) (prms : promise)
    (w : WaitingVehicles) : WaitingVehicles :=
  {| _vehicles := _vehicles w ++ [vehicle];
     _promises := _promises w ++ [prms] |}.

(** [begin()] of an empty vector is [end()]: dereferencing it, or
    passing it to [erase], is undefined.  An exception of [set_value]
    leaves both vectors as they are. *)
Definition permitEntryToFirstInQueue (w : WaitingVehicles) (st : PromiseStore)
    : outcome (WaitingVehicles * PromiseStore) :=
  match _promises w with
  | [] => Undefined
  | firstPromise :: promises' =>
      match set_value firstPromise st with
      | Throws e => Throws e
      | Undefined => Undefined
      | Done st' =>
          match _vehicles w with
          | [] => Undefined
          | firstVehicle :: vehicles' =>
              Done ({| _vehicles := vehicles'; _promises := promises' |}, st')
          end
      end
  end.

(** Operations on a [WaitingVehicles] object, for runs of them. *)
Inductive wv_op : Set :=
  | OpPushBack (vehicle : Vehicle) (prms : promise)
  | OpPermit.

Definition wv_apply (op : wv_op) (ws : WaitingVehicles * PromiseStore)
    : outcome (WaitingVehicles * PromiseStore) :=
  match op with
  | OpPushBack v p => Done (pushBack v p ws.1, ws.2)
  | OpPermit => permitEntryToFirstInQueue ws.1 ws.2
  end.

Fixpoint wv_run (ops : list wv_op) (ws : WaitingVehicles * PromiseStore)
    : outcome (WaitingVehicles * PromiseStore) :=
  match ops with
  | [] => Done ws
  | op :: ops' =>
      match wv_apply op ws with
      | Done ws' => wv_run ops' ws'
      | Throws e => Throws e
      | Undefined => Undefined
      end
  end.

(** [n] grants in a row. *)
Definition permit_n (n : nat) : list wv_op := replicate n OpPermit.

(** ** Streets and the street list of an intersection *)

(** Of a street the code here reads the id only ([TrafficObject::_id],
    through [getID()]). *)
Record Street : Type := {
  street_id : Z
}.

Definition getID (s : Street) : Z := street_id s.

Record Intersection : Type := {
  _streets : list Street;
  _waitingVehicles : WaitingVehicles;
  _trafficLight : TrafficLight;
  _isBlocked : bool
}.

(** [Intersection::Intersection()] *)
Definition Intersection_new : Intersection :=
  {| _streets := [];
     _waitingVehicles := WaitingVehicles_new;
     _trafficLight := TrafficLight_new;
     _isBlocked := false |}.

Definition addStreet (street : Street) (i : Intersection) : Intersection :=
  {| _streets := _streets i ++ [street];
     _waitingVehicles := _waitingVehicles i;
     _trafficLight := _trafficLight i;
     _isBlocked := _isBlocked i |}.

(** The [for (auto it : _streets)] loop of [queryStreets], with the
    accumulator [outgoings]. *)
Fixpoint queryStreets_loop (incoming : Street) (streets outgoings : list Street)
    : list Street :=
  match streets with
  | [] => outgoings
  | it :: rest =>
      if bool_decide (getID incoming <> getID it)
      then queryStreets_loop incoming rest (outgoings ++ [it])
      else queryStreets_loop incoming rest outgoings
  end.

(** The result together with the intersection after the call. *)
Definition queryStreets (incoming : Street) (i : Intersection)
    : list Street * Intersection :=
  (queryStreets_loop incoming (_streets i) [], i).

Definition setIsBlocked (isBlocked : bool) (i : Intersection) : Intersection :=
  {| _streets := _streets i;
     _waitingVehicles := _waitingVehicles i;
     _trafficLight := _trafficLight i;
     _isBlocked := isBlocked |}.

Definition set_waitingVehicles (w : WaitingVehicles) (i : Intersection)
    : Intersection :=
  {| _streets := _streets i;
     _waitingVehicles := w;
     _trafficLight := _trafficLight i;
     _isBlocked := _isBlocked i |}.

Definition set_trafficLight (tl : TrafficLight) (i : Intersection)
    : Intersection :=
  {| _streets := _streets i;
     _waitingVehicles := _waitingVehicles i;
     _trafficLight := tl;
     _isBlocked := _isBlocked i |}.

(** [Intersection::vehicleHasLeft]: the argument is not looked at. *)
Definition vehicleHasLeft (vehicle : Vehicle) (i : Intersection) : Intersection :=
  setIsBlocked false i.

(** The body of the [while (true)] loop of [processVehicleQueue], after
    the sleep, as one step.  [_isBlocked] is written by no other
    statement than [setIsBlocked(true)] here and [setIsBlocked(false)]
    in [vehicleHasLeft], and the queue is only appended to by other
    threads. *)
Definition processVehicleQueue_iter (i : Intersection) (st : PromiseStore)
    : outcome (Intersection * PromiseStore) :=
  if bool_decide (getSize (_waitingVehicles i) > 0) && negb (_isBlocked i)
  then
    let i1 := setIsBlocked true i in
    match permitEntryToFirstInQueue (_waitingVehicles i1) st with
    | Done (w', st') => Done (set_waitingVehicles w' i1, st')
    | Throws e => Throws e
    | Undefined => Undefined
    end
  else Done (i, st).

(** ** The scheduler thread: [TrafficLight::cycleThroughPhases]

    Time points are counts of ticks of [std::chrono::system_clock];
    [ticks_per_ms] is the number of ticks in a millisecond, which the
    platform fixes (no proof depends on its value).  What the loop reads
    from outside in one turn is a [CycleInput]: the two calls of
    [system_clock::now()] and the value of [distribution(eng)]. *)

Definition dwell_lo : Z := 4000.
Definition dwell_hi : Z := 6000.

(** What [std::uniform_int_distribution<int>(4000, 6000)] may return. *)
Definition in_dwell_range (d : Z) : Prop := dwell_lo <= d <= dwell_hi.

#[global] Instance in_dwell_range_dec d : Decision (in_dwell_range d).
Proof. unfold in_dwell_range. apply _. Defined.

Record CycleLocals : Type := {
  cycleDuration : Z;        (* int, milliseconds *)
  lastUpdate : Z            (* time_point, ticks *)
}.

Record CycleInput : Type := {
  now_check : Z;            (* now() of line 152 *)
  now_reset : Z;            (* now() of line 188 *)
  next_draw : Z             (* distribution(eng) of line 191 *)
}.

(** Ghost record of one toggle: the phase switched to and sent, the
    elapsed time that was measured and the dwell duration it was
    compared with. *)
Record Toggle : Type := {
  sent_phase : TrafficLightPhase;
  measured : Z;
  dwell : Z
}.

(** The value of the 64-bit two's complement integer that has the low
    bits of [z]: what a subtraction of tick counts leaves where the
    exact difference does not fit (the C++ standard leaves that case
    undefined). *)
Definition int64 (z : Z) : Z := (z + 2 ^ 63) mod 2 ^ 64 - 2 ^ 63.

(** A reading of [system_clock]: ticks since the epoch, in 64 bits. *)
Definition clock_reading (z : Z) : Prop := 0 <= z < 2 ^ 63.

#[global] Instance clock_reading_dec z : Decision (clock_reading z).
Proof. unfold clock_reading. apply _. Defined.

(** Lines 115-129: the first draw and the first time stamp. *)
Definition cycleThroughPhases_init (draw0 now0 : Z) : CycleLocals :=
  {| cycleDuration := draw0; lastUpdate := now0 |}.

Section Clock.
Variable ticks_per_ms : Z.

(** [duration_cast<milliseconds>(now - lastUpdate).count()]: the
    difference of the two tick counts is taken in 64 bits, the division
    truncates towards zero. *)
Definition timeSinceLastUpdate (now : Z) (loc : CycleLocals) : Z :=
  int64 (now - lastUpdate loc) `quot` ticks_per_ms.

(** One turn of the [while (true)] loop, after the sleep. *)
Definition cycleThroughPhases_iter (inp : CycleInput)
    (st : TrafficLight * CycleLocals)
    : TrafficLight * CycleLocals * option Toggle :=
  let '(tl, loc) := st in
  let elapsed := timeSinceLastUpdate (now_check inp) loc in
  if bool_decide (elapsed >= cycleDuration loc)
  then
    let tl1 :=
      if bool_decide (_currentPhase tl = red)
      then {| _currentPhase := green; _messageQueue := _messageQueue tl |}
      else {| _currentPhase := red; _messageQueue := _messageQueue tl |} in
    let tl2 :=
      set_messageQueue
        (MessageQueue.send (_currentPhase tl1) (_messageQueue tl1)) tl1 in
    (tl2,
     {| cycleDuration := next_draw inp; lastUpdate := now_reset inp |},
     Some {| sent_phase := _currentPhase tl1;
             measured := elapsed;
             dwell := cycleDuration loc |})
  else (tl, loc, None).

(** The loop over the inputs of its successive turns; the toggles it
    performed, oldest first. *)
Fixpoint cycleThroughPhases_run (inps : list CycleInput)
    (st : TrafficLight * CycleLocals)
    : TrafficLight * CycleLocals * list Toggle :=
  match inps with
  | [] => (st, [])
  | inp :: inps' =>
      let '(tl', loc', tg) := cycleThroughPhases_iter inp st in
      let '(tl'', loc'', tgs) := cycleThroughPhases_run inps' (tl', loc') in
      (tl'', loc'', option_list tg ++ tgs)
  end.

(** ** The running system

    One intersection with its traffic light, the store of shared
    states, the mutex [_mtx] that guards the console, the vehicle
    threads that are inside [addVehicleToQueue], and the locals of the
    scheduler thread. *)

(** Where a vehicle thread stands in [Intersection::addVehicleToQueue].
    [_mtx] comes from TrafficObject.h; it is one mutex for the vehicle
    threads.  The last two positions carry the phase that the thread
    saw last, by [getCurrentPhase()] or by [receive()]. *)
Inductive pc : Set :=
  | AtLock1                       (* 79: unique_lock lck(_mtx) *)
  | AtUnlock1                     (* 80-81: print, lck.unlock() *)
  | AtPush                        (* 84-86: promise, future, pushBack *)
  | AtWait (ftr : promise)        (* 89: ftr.wait() *)
  | AtLock2 (ftr : promise)       (* 90: lck.lock() *)
  | AtCheck (ftr : promise)       (* 91, 108: print, getCurrentPhase() *)
  | InWaitForGreen (ftr : promise)  (* 110: inside waitForGreen() *)
  | AtUnlock2 (ftr : promise) (seen : TrafficLightPhase)   (* 113 *)
  | Finished (ftr : promise) (seen : TrafficLightPhase).   (* returned *)

(** Ghost events of the vehicle threads. *)
Inductive event : Set :=
  | EvCall (v : Vehicle)
  | EvPush (v : Vehicle) (p : promise)
  | EvWaitDone (v : Vehicle)
  | EvPhase (v : Vehicle) (ph : TrafficLightPhase)
  | EvReceive (v : Vehicle) (ph : TrafficLightPhase)
  | EvReturn (v : Vehicle).

Record System : Type := {
  inter : Intersection;
  store : PromiseStore;
  mtx : option Vehicle;
  threads : gmap nat pc;
  sched : CycleLocals;
  trace : list event            (* newest first *)
}.

Definition System_init (draw0 now0 : Z) : System :=
  {| inter := Intersection_new;
     store := {| shared := ∅; set_value_log := [] |};
     mtx := None;
     threads := ∅;
     sched := cycleThroughPhases_init draw0 now0;
     trace := [] |}.

Definition goto (v : Vehicle) (p : pc) (evs : list event) (s : System) : System :=
  {| inter := inter s; store := store s; mtx := mtx s;
     threads := <[v := p]> (threads s);
     sched := sched s; trace := evs ++ trace s |}.

Definition set_mtx (m : option Vehicle) (s : System) : System :=
  {| inter := inter s; store := store s; mtx := m;
     threads := threads s; sched := sched s; trace := trace s |}.

Definition set_inter (i : Intersection) (s : System) : System :=
  {| inter := i; store := store s; mtx := mtx s;
     threads := threads s; sched := sched s; trace := trace s |}.

Definition set_store (st : PromiseStore) (s : System) : System :=
  {| inter := inter s; store := st; mtx := mtx s;
     threads := threads s; sched := sched s; trace := trace s |}.

Definition set_sched (loc : CycleLocals) (s : System) : System :=
  {| inter := inter s; store := store s; mtx := mtx s;
     threads := threads s; sched := loc; trace := trace s |}.

(** The next atomic statement of vehicle [v], which stands at [p]. *)
Definition vehicle_step (v : Vehicle) (p : pc) (s : System) : option System :=
  match p with
  | AtLock1 =>
      match mtx s with
      | None => Some (goto v AtUnlock1 [] (set_mtx (Some v) s))
      | Some _ => None
      end
  | AtUnlock1 => Some (goto v AtPush [] (set_mtx None s))
  | AtPush =>
      let '(prms, st') := new_promise (store s) in
      let w' := pushBack v prms (_waitingVehicles (inter s)) in
      Some (goto v (AtWait prms) [EvPush v prms]
              (set_store st' (set_inter (set_waitingVehicles w' (inter s)) s)))
  | AtWait ftr =>
      if future_ready ftr (store s)
      then Some (goto v (AtLock2 ftr) [EvWaitDone v] s)
      else None
  | AtLock2 ftr =>
      match mtx s with
      | None => Some (goto v (AtCheck ftr) [] (set_mtx (Some v) s))
      | Some _ => None
      end
  | AtCheck ftr =>
      let ph := getCurrentPhase (_trafficLight (inter s)) in
      if bool_decide (ph = red)
      then Some (goto v (InWaitForGreen ftr) [EvPhase v ph] s)
      else Some (goto v (AtUnlock2 ftr ph) [EvPhase v ph] s)
  | InWaitForGreen ftr =>
      match waitForGreen_iter (_trafficLight (inter s)) with
      | None => None
      | Some (ph, returned, tl') =>
          Some (goto v (if returned then AtUnlock2 ftr ph else InWaitForGreen ftr)
                  [EvReceive v ph]
                  (set_inter (set_trafficLight tl' (inter s)) s))
      end
  | AtUnlock2 ftr ph => Some (goto v (Finished ftr ph) [EvReturn v] (set_mtx None s))
  | Finished _ _ => None
  end.

Inductive action : Type :=
  | Call (v : Vehicle)           (* v calls addVehicleToQueue *)
  | Run (v : Vehicle)            (* v executes its next statement *)
  | Dispatch                     (* a turn of processVehicleQueue *)
  | Depart (v : Vehicle)         (* vehicleHasLeft(v) *)
  | LightTick (inp : CycleInput).  (* a turn of cycleThroughPhases *)

(** [None]: the action is not enabled in [s] (the thread is blocked or
    is not there), or the call is undefined or throws. *)
Definition step (a : action) (s : System) : option System :=
  match a with
  | Call v =>
      match threads s !! v with
      | None | Some (Finished _ _) => Some (goto v AtLock1 [EvCall v] s)
      | Some _ => None
      end
  | Run v =>
      match threads s !! v with
      | None => None
      | Some p => vehicle_step v p s
      end
  | Dispatch =>
      match processVehicleQueue_iter (inter s) (store s) with
      | Done (i', st') => Some (set_store st' (set_inter i' s))
      | _ => None
      end
  | Depart v => Some (set_inter (vehicleHasLeft v (inter s)) s)
  | LightTick inp =>
      let '(tl', loc', _) :=
        cycleThroughPhases_iter inp (_trafficLight (inter s), sched s) in
      Some (set_sched loc' (set_inter (set_trafficLight tl' (inter s)) s))
  end.

Fixpoint run (acts : list action) (s : System) : option System :=
  match acts with
  | [] => Some s
  | a :: acts' =>
      match step a s with
      | None => None
      | Some s' => run acts' s'
      end
  end.

Definition reachable (s : System) : Prop :=
  exists draw0 now0 acts, run acts (System_init draw0 now0) = Some s.

(** A light observation of [v]: a read of the phase or a reception. *)
Definition light_event (v : Vehicle) (e : event) : bool :=
  match e with
  | EvPhase v' _ | EvReceive v' _ => bool_decide (v = v')
  | _ => false
  end.

(** In the events [t] (newest first), has the admission wait of the
    call of [addVehicleToQueue] that [v] is in completed? *)
Fixpoint wait_done_in_call (v : Vehicle) (t : list event) : bool :=
  match t with
  | [] => false
  | EvWaitDone v' :: t' =>
      if bool_decide (v = v') then true else wait_done_in_call v t'
  | EvCall v' :: t' =>
      if bool_decide (v = v') then false else wait_done_in_call v t'
  | _ :: t' => wait_done_in_call v t'
  end.

(** The most recent light observation of [v] in the events [t]. *)
Fixpoint last_light (v : Vehicle) (t : list event) : option TrafficLightPhase :=
  match t with
  | [] => None
  | EvPhase v' ph :: t' | EvReceive v' ph :: t' =>
      if bool_decide (v = v') then Some ph else last_light v t'
  | _ :: t' => last_light v t'
  end.

(** Every light observation of [v] comes after the completion of the
    admission wait of the same call. *)
Fixpoint light_after_admission (v : Vehicle) (t : list event) : Prop :=
  match t with
  | [] => True
  | e :: t' =>
      (light_event v e = true -> wait_done_in_call v t' = true)
      /\ light_after_admission v t'
  end.

(** The future of a thread that is past its admission wait, and the
    phase that a thread past the light gate has seen. *)
Definition ready_future (p : pc) : option promise :=
  match p with
  | AtLock2 f | AtCheck f | InWaitForGreen f | AtUnlock2 f _ | Finished f _ =>
      Some f
  | _ => None
  end.

Definition seen_phase (p : pc) : option TrafficLightPhase :=
  match p with
  | AtUnlock2 _ ph | Finished _ ph => Some ph
  | _ => None
  end.

(** What holds of the queue and the store in every reachable state. *)
Record queue_inv (w : WaitingVehicles) (st : PromiseStore) : Prop := {
  inv_len : length (_vehicles w) = length (_promises w);
  inv_nodup : NoDup (_promises w);
  inv_pending : forall p, p ∈ _promises w -> shared st !! p = Some false;
  inv_logged : forall f, shared st !! f = Some true -> f ∈ set_value_log st
}.

(** What holds of the vehicle threads in every reachable state. *)
Record threads_inv (s : System) : Prop := {
  inv_ready : forall v p f,
    threads s !! v = Some p -> ready_future p = Some f ->
    shared (store s) !! f = Some true;
  inv_wait_done : forall v p f,
    threads s !! v = Some p -> ready_future p = Some f ->
    wait_done_in_call v (trace s) = true;
  inv_seen : forall v p ph,
    threads s !! v = Some p -> seen_phase p = Some ph ->
    ph = green /\ last_light v (trace s) = Some green;
  inv_order : forall v, light_after_admission v (trace s)
}.

(** A run that takes vehicle 1 up to its admission wait. *)
Definition demo_acts : list action :=
  [Call 1%nat; Run 1%nat; Run 1%nat; Run 1%nat].


(** A run in which the light has gone green and red again, unobserved,
    before vehicle 1 arrives. *)
Definition demo_stale_acts : list action :=
  [LightTick {| now_check := 6001040000; now_reset := 6001050000;
                next_draw := 4000 |};
   LightTick {| now_check := 10001060000; now_reset := 10001070000;
                next_draw := 4000 |};
   Call 1%nat; Run 1%nat; Run 1%nat; Run 1%nat; Dispatch;
   Run 1%nat; Run 1%nat; Run 1%nat; Run 1%nat; Run 1%nat].

(** The entries pushed according to the events [t], oldest first. *)
Fixpoint pushed (t : list event) : list (Vehicle * promise) :=
  match t with
  | [] => []
  | EvPush v p :: t' => pushed t' ++ [(v, p)]
  | _ :: t' => pushed t'
  end.

(** The log of grants has no repetition and holds ready promises. *)
Definition log_inv (st : PromiseStore) : Prop :=
  NoDup (set_value_log st)
  /\ forall p, p ∈ set_value_log st -> shared st !! p = Some true.

(** The grants made are the front of what was pushed, the queue is the
    rest. *)
Definition fifo_inv (s : System) : Prop :=
  exists granted : list (Vehicle * promise),
    pushed (trace s)
    = granted ++ zip (_vehicles (_waitingVehicles (inter s)))
                     (_promises (_waitingVehicles (inter s)))
    /\ granted.*2 = set_value_log (store s).

(** The queue and the store of the system satisfy [queue_inv]. *)
Definition sys_queue_inv (s : System) : Prop :=
  queue_inv (_waitingVehicles (inter s)) (store s).

End Clock.

(** ** Runs of operations, for the statements below *)

(** The entries that the run [ops] pushes, in order, and the number of
    grants it asks for. *)
Fixpoint pushes (ops : list wv_op) : list (Vehicle * promise) :=
  match ops with
  | [] => []
  | OpPushBack v p :: ops' => (v, p) :: pushes ops'
  | OpPermit :: ops' => pushes ops'
  end.

Fixpoint permits (ops : list wv_op) : nat :=
  match ops with
  | [] => O
  | OpPushBack _ _ :: ops' => permits ops'
  | OpPermit :: ops' => S (permits ops')
  end.

Definition push_all (es : list (Vehicle * promise)) : list wv_op :=
  map (fun e => OpPushBack e.1 e.2) es.

(** The store with the promises [ps] fulfilled one after the other. *)
Definition fulfil_all (ps : list promise) (st : PromiseStore) : PromiseStore :=
  {| shared := foldl (fun m p => <[p := true]> m) (shared st) ps;
     set_value_log := set_value_log st ++ ps |}.

(** Streets registered one after the other. *)
Definition addStreets (streets : list Street) (i : Intersection) : Intersection :=
  foldl (fun i' s => addStreet s i') i streets.

(** The queue that holds the entries [es], front first. *)
Definition queue_of (es : list (Vehicle * promise)) : WaitingVehicles :=
  {| _vehicles := es.*1; _promises := es.*2 |}.

(** A store with three pending promises, for the examples. *)
Definition three_pending : PromiseStore :=
  {| shared := <[0%nat := false]> (<[1%nat := false]> (<[2%nat := false]> ∅));
     set_value_log := [] |}.

(** The other phase, and the phases [ph], other, [ph], ... *)
Definition toggled (ph : TrafficLightPhase) : TrafficLightPhase :=
  match ph with
  | red => green
  | green => red
  end.

Fixpoint alternate (ph : TrafficLightPhase) (n : nat) : list TrafficLightPhase :=
  match n with
  | O => []
  | S k => ph :: alternate (toggled ph) k
  end.


(** The states that the two example runs end in. *)
Definition demo_state : System :=
  default (System_init 6000 0)
    (run 1000000 demo_acts (System_init 6000 0)).


Definition demo_stale : System :=
  default (System_init 6000 0)
    (run 1000000 demo_stale_acts (System_init 6000 0)).

(** [demo_state] after a turn of the dispatch loop. *)
Definition demo_granted : System :=
  default demo_state (step 1000000 Dispatch demo_state).

(** ** Further notions on the running system *)

(** The positions of [addVehicleToQueue] at which the thread owns
    [_mtx]. *)
Definition holds_mtx (p : pc) : bool :=
  match p with
  | AtUnlock1 | AtCheck _ | InWaitForGreen _ | AtUnlock2 _ _ => true
  | _ => false
  end.

(** The positions at which the next statement locks [_mtx]. *)
Definition wants_mtx (p : pc) : bool :=
  match p with
  | AtLock1 | AtLock2 _ => true
  | _ => false
  end.

Definition is_depart (a : action) : bool :=
  match a with
  | Depart _ => true
  | _ => false
  end.

(** [_mtx] is owned by the thread that stands between a lock and the
    unlock after it, and by no other. *)
Definition mtx_inv (s : System) : Prop :=
  forall v, mtx s = Some v <->
            exists p, threads s !! v = Some p /\ holds_mtx p = true.

(** Example runs for the system properties: vehicle 1 admitted and
    vehicle 2 queued behind it; vehicle 1 between lock and unlock;
    vehicle 1 waiting for green and vehicle 2 arriving. *)
Definition demo_queued_acts : list action :=
  demo_acts ++ [Dispatch; Call 2%nat; Run 2%nat; Run 2%nat; Run 2%nat].

Definition demo_queued : System :=
  default (System_init 6000 0)
    (run 1000000 demo_queued_acts (System_init 6000 0)).

Definition demo_locked : System :=
  default (System_init 6000 0)
    (run 1000000 [Call 1%nat; Run 1%nat] (System_init 6000 0)).

Definition demo_waiting_acts : list action :=
  demo_acts ++ [Dispatch; Run 1%nat; Run 1%nat; Run 1%nat; Call 2%nat].

Definition demo_waiting : System :=
  default (System_init 6000 0)
    (run 1000000 demo_waiting_acts (System_init 6000 0)).

(** ** The events of a call of [addVehicleToQueue] *)








(** A run in which vehicle 1 waits for green and holds [_mtx], vehicle
    3 is past the first unlock and about to push its ticket, and
    vehicle 2 has called and has [_mtx] to lock. *)
Definition demo_held_up_acts : list action :=
  [Call 1%nat; Run 1%nat; Run 1%nat; Run 1%nat;
   Call 3%nat; Run 3%nat; Run 3%nat;
   Dispatch; Run 1%nat; Run 1%nat; Run 1%nat; Call 2%nat].

Definition demo_held_up : System :=
  default (System_init 6000 0)
    (run 1000000 demo_held_up_acts (System_init 6000 0)).

(** From there, the light turns green early: vehicle 1 receives it
    and unlocks, vehicle 2 locks, unlocks and pushes its ticket while
    vehicle 3 has not pushed yet; and the light turns green late:
    vehicle 3 has pushed before. *)
Definition demo_green_early : list action :=
  [LightTick {| now_check := 6001040000; now_reset := 6001050000;
                next_draw := 4500 |};
   Run 1%nat; Run 1%nat; Run 2%nat; Run 2%nat; Run 2%nat].

Definition demo_green_late : list action :=
  [Run 3%nat;
   LightTick {| now_check := 6001040000; now_reset := 6001050000;
                next_draw := 4500 |};
   Run 1%nat; Run 1%nat; Run 2%nat; Run 2%nat; Run 2%nat].


(** ** Setting up a city (Street.cpp, TrafficSimulator-Final.cpp)

    The exceptions that the set-up code can meet, and the result of a
    call: a value, an exception on its way out, undefined behaviour (a
    null pointer followed), or a loop cut short by the fuel of the
    model. *)

Inductive std_exception : Set :=
  | out_of_range
  | invalid_argument
  | bad_weak_ptr.

Inductive result (A : Type) : Type :=
  | Return (a : A)
  | Raise (e : std_exception)
  | Undef
  | NoFuel.
Arguments Return {A} a.
Arguments Raise {A} e.
Arguments Undef {A}.
Arguments NoFuel {A}.

#[global] Instance result_ret : MRet result := @Return.
#[global] Instance result_bind : MBind result := fun A B f m =>
  match m with
  | Return a => f a
  | Raise e => Raise e
  | Undef => Undef
  | NoFuel => NoFuel
  end.

(** [v.at(i)] *)
Definition at_ {A : Type} (v : list A) (i : Z) : result A :=
  match v !! Z.to_nat i with
  | Some x => Return x
  | None => Raise out_of_range
  end.

(** Conversion of an [int] to [size_t] (64 bits), as the comparison
    [i < n] of a [size_t] with an [int] makes it. *)
Definition size_t_of_int (n : Z) : Z := n mod 2 ^ 64.

(** [for (size_t i = first; i < bound; i++) body(i)], [bound] already
    a [size_t]. *)
Fixpoint for_size_t {St : Type} (fuel : nat) (i bound : Z)
    (body : Z -> St -> result St) (s : St) : result St :=
  if bool_decide (i < bound)
  then
    match fuel with
    | O => NoFuel
    | S fuel' => s' ← body i s; for_size_t fuel' (i + 1) bound body s'
    end
  else Return s.

(** A street object: the reference by which intersections know it,
    whether a [shared_ptr] owns it (it does after [make_shared]), and
    the two intersections it was given, as positions in the vector of
    intersections. *)
Record StreetObj : Type := {
  street_ref : Street;
  shared_owned : bool;
  _interIn : option nat;
  _interOut : option nat
}.

(** An intersection with the position that [setPosition] gave it. *)
Record Junction : Type := {
  junction : Intersection;
  _pos : option (Z * Z)
}.

(** Vehicle.h is not among the sources: of a vehicle the model keeps
    the street and the intersection that its two setters are given. *)
Record VehicleObj : Type := {
  _currStreet : option nat;
  _currDestination : option nat
}.

(** The arguments of [createTrafficObjects_Paris] and [_NYC]. *)
Record City : Type := {
  streets : list StreetObj;
  intersections : list Junction;
  vehicles : list VehicleObj;
  filename : string
}.

Definition City_empty : City :=
  {| streets := []; intersections := []; vehicles := []; filename := "" |}.

Definition set_streets (l : list StreetObj) (c : City) : City :=
  {| streets := l; intersections := intersections c;
     vehicles := vehicles c; filename := filename c |}.

Definition set_intersections (l : list Junction) (c : City) : City :=
  {| streets := streets c; intersections := l;
     vehicles := vehicles c; filename := filename c |}.

Definition set_vehicles (l : list VehicleObj) (c : City) : City :=
  {| streets := streets c; intersections := intersections c;
     vehicles := l; filename := filename c |}.

Definition set_filename (f : string) (c : City) : City :=
  {| streets := streets c; intersections := intersections c;
     vehicles := vehicles c; filename := f |}.

Section Setup.
(** The id that [TrafficObject] gives to the street object made when
    the vector of streets has [k] elements (TrafficObject.cpp is not
    among the sources). *)
Variable street_ident : nat -> Z.

(** [std::make_shared<Street>()] *)
Definition new_street (c : City) : StreetObj :=
  {| street_ref := {| street_id := street_ident (length (streets c)) |};
     shared_owned := true; _interIn := None; _interOut := None |}.

Definition new_junction : Junction :=
  {| junction := Intersection_new; _pos := None |}.

Definition new_vehicle : VehicleObj :=
  {| _currStreet := None; _currDestination := None |}.

(** [intersections.at(j)->setPosition(x, y)] *)
Definition setPosition_at (j x y : Z) (c : City) : result City :=
  n ← at_ (intersections c) j;
  Return (set_intersections
            (<[Z.to_nat j := {| junction := junction n; _pos := Some (x, y) |}]>
               (intersections c)) c).

(** [in->addStreet(self)] on the intersection at position [j]; a
    position that is not there stands for a null pointer. *)
Definition addStreet_at (j : nat) (self : Street) (c : City) : result City :=
  match intersections c !! j with
  | None => Undef
  | Some n =>
      Return (set_intersections
                (<[j := {| junction := addStreet self (junction n);
                           _pos := _pos n |}]> (intersections c)) c)
  end.

(** [Street::setInIntersection]: the member is assigned first; then
    [get_shared_this()] throws [bad_weak_ptr] if no [shared_ptr] owns
    the street, and the exception is thrown again by the handler. *)
Definition setInIntersection (k j : nat) (c : City) : result City :=
  match streets c !! k with
  | None => Undef
  | Some so =>
      let so' := {| street_ref := street_ref so; shared_owned := shared_owned so;
                    _interIn := Some j; _interOut := _interOut so |} in
      let c' := set_streets (<[k := so']> (streets c)) c in
      if shared_owned so
      then addStreet_at j (street_ref so) c'
      else Raise bad_weak_ptr
  end.

Definition setOutIntersection (k j : nat) (c : City) : result City :=
  match streets c !! k with
  | None => Undef
  | Some so =>
      let so' := {| street_ref := street_ref so; shared_owned := shared_owned so;
                    _interIn := _interIn so; _interOut := Some j |} in
      let c' := set_streets (<[k := so']> (streets c)) c in
      if shared_owned so
      then addStreet_at j (street_ref so) c'
      else Raise bad_weak_ptr
  end.

(** [streets.at(k)->setInIntersection(intersections.at(j))] *)
Definition connect_in (k j : Z) (c : City) : result City :=
  _ ← at_ (streets c) k; _ ← at_ (intersections c) j;
  setInIntersection (Z.to_nat k) (Z.to_nat j) c.

Definition connect_out (k j : Z) (c : City) : result City :=
  _ ← at_ (streets c) k; _ ← at_ (intersections c) j;
  setOutIntersection (Z.to_nat k) (Z.to_nat j) c.

(** [vehicles.at(nv)->setCurrentStreet(streets.at(k))] and
    [vehicles.at(nv)->setCurrentDestination(intersections.at(j))] *)
Definition setCurrentStreet_at (nv k : Z) (c : City) : result City :=
  v ← at_ (vehicles c) nv; _ ← at_ (streets c) k;
  Return (set_vehicles
            (<[Z.to_nat nv := {| _currStreet := Some (Z.to_nat k);
                                 _currDestination := _currDestination v |}]>
               (vehicles c)) c).

Definition setCurrentDestination_at (nv j : Z) (c : City) : result City :=
  v ← at_ (vehicles c) nv; _ ← at_ (intersections c) j;
  Return (set_vehicles
            (<[Z.to_nat nv := {| _currStreet := _currStreet v;
                                 _currDestination := Some (Z.to_nat j) |}]>
               (vehicles c)) c).

Definition push_intersection (c : City) : City :=
  set_intersections (intersections c ++ [new_junction]) c.

Definition push_street (c : City) : City :=
  set_streets (streets c ++ [new_street c]) c.

Definition push_vehicle (c : City) : City :=
  set_vehicles (vehicles c ++ [new_vehicle]) c.

Definition createTrafficObjects_Paris (fuel : nat) (nVehicles : Z) (c : City)
    : result City :=
  let c := set_filename "../data/paris.jpg" c in
  let nIntersections := 9 in
  c ← for_size_t fuel 0 (size_t_of_int nIntersections)
        (fun ni c => Return (push_intersection c)) c;
  c ← setPosition_at 0 385 270 c;
  c ← setPosition_at 1 1240 80 c;
  c ← setPosition_at 2 1625 75 c;
  c ← setPosition_at 3 2110 75 c;
  c ← setPosition_at 4 2840 175 c;
  c ← setPosition_at 5 3070 680 c;
  c ← setPosition_at 6 2800 1400 c;
  c ← setPosition_at 7 400 1100 c;
  c ← setPosition_at 8 1700 900 c;
  let nStreets := 8 in
  c ← for_size_t fuel 0 (size_t_of_int nStreets)
        (fun ns c =>
           c ← connect_in ns ns (push_street c);
           connect_out ns 8 c) c;
  for_size_t fuel 0 (size_t_of_int nVehicles)
    (fun nv c =>
       c ← setCurrentStreet_at nv nv (push_vehicle c);
       setCurrentDestination_at nv 8 c) c.

Definition createTrafficObjects_NYC (fuel : nat) (nVehicles : Z) (c : City)
    : result City :=
  let c := set_filename "../data/nyc.jpg" c in
  let nIntersections := 6 in
  c ← for_size_t fuel 0 (size_t_of_int nIntersections)
        (fun ni c => Return (push_intersection c)) c;
  c ← setPosition_at 0 1430 625 c;
  c ← setPosition_at 1 2575 1260 c;
  c ← setPosition_at 2 2200 1950 c;
  c ← setPosition_at 3 1000 1350 c;
  c ← setPosition_at 4 400 1000 c;
  c ← setPosition_at 5 750 250 c;
  let nStreets := 7 in
  c ← for_size_t fuel 0 (size_t_of_int nStreets)
        (fun ns c => Return (push_street c)) c;
  c ← connect_in 0 0 c; c ← connect_out 0 1 c;
  c ← connect_in 1 1 c; c ← connect_out 1 2 c;
  c ← connect_in 2 2 c; c ← connect_out 2 3 c;
  c ← connect_in 3 3 c; c ← connect_out 3 4 c;
  c ← connect_in 4 4 c; c ← connect_out 4 5 c;
  c ← connect_in 5 5 c; c ← connect_out 5 0 c;
  c ← connect_in 6 0 c; c ← connect_out 6 3 c;
  for_size_t fuel 0 (size_t_of_int nVehicles)
    (fun nv c =>
       c ← setCurrentStreet_at nv nv (push_vehicle c);
       setCurrentDestination_at nv nv c) c.

(** The intersection at position [j], and the streets registered at
    it. *)
Definition junction_at (j : nat) (c : City) : Intersection :=
  default Intersection_new (junction <$> intersections c !! j).

Definition streets_at (j : nat) (c : City) : list Street :=
  _streets (junction_at j c).

(** The reference of the street made at position [k]. *)
Definition street_made (k : nat) : Street := {| street_id := street_ident k |}.

(** The vehicle that the set-up loops leave at a position: on the
    street [k], bound for the intersection [j]. *)
Definition vehicle_on (k j : Z) : VehicleObj :=
  {| _currStreet := Some (Z.to_nat k); _currDestination := Some (Z.to_nat j) |}.

(** The body of the loop over the vehicles, with the destination as a
    function of the position. *)
Definition vehicle_body (dest : Z -> Z) (nv : Z) (c : City) : result City :=
  c ← setCurrentStreet_at nv nv (push_vehicle c);
  setCurrentDestination_at nv (dest nv) c.

End Setup.

(** ** The command line (TrafficSimulator-Final.cpp, [main])

    [std::stoi] with its default arguments: white space is skipped, a
    sign is optional, the decimal digits that follow are the number,
    what comes after them is not looked at.  No digit:
    [invalid_argument]; a number that is no [int]: [out_of_range]. *)

Definition INT_MIN : Z := -2147483648.

Definition isspace (c : ascii) : bool :=
  let n := nat_of_ascii c in
  bool_decide (n = 32%nat) || bool_decide (9 <= n <= 13)%nat.

Definition digit_value (c : ascii) : option Z :=
  let n := Z.of_nat (nat_of_ascii c) in
  if bool_decide (48 <= n <= 57) then Some (n - 48) else None.

Fixpoint skip_spaces (s : string) : string :=
  match s with
  | String c rest => if isspace c then skip_spaces rest else s
  | EmptyString => s
  end.

(** The digits at the head of [s], read after those that made [acc]. *)
Fixpoint read_digits (s : string) (acc : option Z) : option Z :=
  match s with
  | String c rest =>
      match digit_value c with
      | Some d => read_digits rest (Some (10 * default 0 acc + d))
      | None => acc
      end
  | EmptyString => acc
  end.

Definition stoi (s : string) : result Z :=
  let s := skip_spaces s in
  let '(negative, digits) :=
    match s with
    | String "-" rest => (true, rest)
    | String "+" rest => (false, rest)
    | _ => (false, s)
    end in
  match read_digits digits None with
  | None => Raise invalid_argument
  | Some n =>
      let v := if negative : bool then - n else n in
      if bool_decide (INT_MIN <= v <= INT_MAX) then Return v
      else Raise out_of_range
  end.

Record Options : Type := {
  cityMap : string;
  outputVideo : string;
  simulationDuration : Z;
  nVehicles : Z
}.

(** The values that [main] starts from. *)
Definition Options_default : Options :=
  {| cityMap := "paris";
     outputVideo := "../data/traffic_simulation.mp4";
     simulationDuration := 20;
     nVehicles := 6 |}.

Definition set_cityMap (v : string) (o : Options) : Options :=
  {| cityMap := v; outputVideo := outputVideo o;
     simulationDuration := simulationDuration o; nVehicles := nVehicles o |}.

Definition set_outputVideo (v : string) (o : Options) : Options :=
  {| cityMap := cityMap o; outputVideo := v;
     simulationDuration := simulationDuration o; nVehicles := nVehicles o |}.

Definition set_simulationDuration (v : Z) (o : Options) : Options :=
  {| cityMap := cityMap o; outputVideo := outputVideo o;
     simulationDuration := v; nVehicles := nVehicles o |}.

Definition set_nVehicles (v : Z) (o : Options) : Options :=
  {| cityMap := cityMap o; outputVideo := outputVideo o;
     simulationDuration := simulationDuration o; nVehicles := v |}.

(** How the loop over [argv] ends: with the options, or in [--help],
    where [main] prints the usage and returns 0. *)
Inductive parsed : Type :=
  | Proceed (o : Options)
  | Help.

(** The loop [for (int i = 1; i < argc; ++i)] over [args], which is
    [argv] from [argv[1]] on.  [i + 1 < argc] is: an argument follows;
    [argv[++i]] takes it. *)
Fixpoint parse_args (args : list string) (o : Options) : result parsed :=
  match args with
  | [] => Return (Proceed o)
  | arg :: rest =>
      match rest with
      | value :: rest' =>
          if String.eqb arg "--city" then parse_args rest' (set_cityMap value o)
          else if String.eqb arg "--output"
          then parse_args rest' (set_outputVideo value o)
          else if String.eqb arg "--duration"
          then d ← stoi value; parse_args rest' (set_simulationDuration d o)
          else if String.eqb arg "--vehicles"
          then n ← stoi value; parse_args rest' (set_nVehicles n o)
          else if String.eqb arg "--help" then Return Help
          else parse_args rest o
      | [] =>
          if String.eqb arg "--help" then Return Help
          else parse_args rest o
      end
  end.

(** [main] up to the start of the simulation: the options, then the
    city that is built for them.  [None]: the usage was printed. *)
Definition main_setup (street_ident : nat -> Z) (fuel : nat) (args : list string)
    : result (option (Options * City)) :=
  p ← parse_args args Options_default;
  match p with
  | Help => Return None
  | Proceed o =>
      c ← (if String.eqb (cityMap o) "nyc"
           then createTrafficObjects_NYC street_ident fuel (nVehicles o) City_empty
           else createTrafficObjects_Paris street_ident fuel (nVehicles o) City_empty);
      Return (Some (o, c))
  end.

(** The decimal numeral of [z]. *)
Definition decimal (z : Z) : string := NilZero.string_of_int (Z.to_int z).

(** [s] does not begin with a digit. *)
Definition no_digit_ahead (s : string) : Prop :=
  match s with
  | String c _ => digit_value c = None
  | EmptyString => True
  end.

(** [s] is made of white space. *)
Fixpoint all_spaces (s : string) : bool :=
  match s with
  | String c rest => isspace c && all_spaces rest
  | EmptyString => true
  end.

(** The arguments that the loop of [main] knows. *)
Definition is_flag (arg : string) : bool :=
  String.eqb arg "--city" || String.eqb arg "--output"
  || String.eqb arg "--duration" || String.eqb arg "--vehicles"
  || String.eqb arg "--help".


(** ** The frame loop (Graphics.h, Graphics.cpp)

    The images of OpenCV are kept without their pixels, the video as
    the number of frames written to it, the console as the progress
    lines printed (seconds done, seconds in all).  Whether the
    background image can be read and the video file opened is given
    from outside. *)

Inductive image : Set := Image.

Record Graphics : Type := {
  _bgFilename : string;
  _videoFilename : string;
  _images : list image;
  _headlessMode : bool;
  _simulationDuration : Z;
  _frameCount : Z;
  _fps : Z;
  writer_opened : bool;
  frames_written : nat;
  progress_lines : list (Z * Z)
}.

(** [Graphics::Graphics()] *)
Definition Graphics_new : Graphics :=
  {| _bgFilename := ""; _videoFilename := "../data/traffic_simulation.mp4";
     _images := []; _headlessMode := true; _simulationDuration := 60;
     _frameCount := 0; _fps := 10; writer_opened := false;
     frames_written := O; progress_lines := [] |}.

Definition setBgFilename (f : string) (g : Graphics) : Graphics :=
  {| _bgFilename := f; _videoFilename := _videoFilename g;
     _images := _images g; _headlessMode := _headlessMode g;
     _simulationDuration := _simulationDuration g;
     _frameCount := _frameCount g; _fps := _fps g;
     writer_opened := writer_opened g;
     frames_written := frames_written g; progress_lines := progress_lines g |}.

Definition setVideoFilename (f : string) (g : Graphics) : Graphics :=
  {| _bgFilename := _bgFilename g; _videoFilename := f;
     _images := _images g; _headlessMode := _headlessMode g;
     _simulationDuration := _simulationDuration g;
     _frameCount := _frameCount g; _fps := _fps g;
     writer_opened := writer_opened g;
     frames_written := frames_written g; progress_lines := progress_lines g |}.

Definition setSimulationDuration (seconds : Z) (g : Graphics) : Graphics :=
  {| _bgFilename := _bgFilename g; _videoFilename := _videoFilename g;
     _images := _images g; _headlessMode := _headlessMode g;
     _simulationDuration := seconds;
     _frameCount := _frameCount g; _fps := _fps g;
     writer_opened := writer_opened g;
     frames_written := frames_written g; progress_lines := progress_lines g |}.

Definition set_images (l : list image) (g : Graphics) : Graphics :=
  {| _bgFilename := _bgFilename g; _videoFilename := _videoFilename g;
     _images := l; _headlessMode := _headlessMode g;
     _simulationDuration := _simulationDuration g;
     _frameCount := _frameCount g; _fps := _fps g;
     writer_opened := writer_opened g;
     frames_written := frames_written g; progress_lines := progress_lines g |}.

Definition set_writer_opened (b : bool) (g : Graphics) : Graphics :=
  {| _bgFilename := _bgFilename g; _videoFilename := _videoFilename g;
     _images := _images g; _headlessMode := _headlessMode g;
     _simulationDuration := _simulationDuration g;
     _frameCount := _frameCount g; _fps := _fps g;
     writer_opened := b;
     frames_written := frames_written g; progress_lines := progress_lines g |}.

(** One more frame in the video. *)
Definition write_frame (g : Graphics) : Graphics :=
  {| _bgFilename := _bgFilename g; _videoFilename := _videoFilename g;
     _images := _images g; _headlessMode := _headlessMode g;
     _simulationDuration := _simulationDuration g;
     _frameCount := _frameCount g; _fps := _fps g;
     writer_opened := writer_opened g;
     frames_written := S (frames_written g);
     progress_lines := progress_lines g |}.

(** [_frameCount++] *)
Definition count_frame (g : Graphics) : Graphics :=
  {| _bgFilename := _bgFilename g; _videoFilename := _videoFilename g;
     _images := _images g; _headlessMode := _headlessMode g;
     _simulationDuration := _simulationDuration g;
     _frameCount := _frameCount g + 1; _fps := _fps g;
     writer_opened := writer_opened g;
     frames_written := frames_written g;
     progress_lines := progress_lines g |}.

(** The line ["Simulation progress: a/b seconds"]. *)
Definition print_progress (a b : Z) (g : Graphics) : Graphics :=
  {| _bgFilename := _bgFilename g; _videoFilename := _videoFilename g;
     _images := _images g; _headlessMode := _headlessMode g;
     _simulationDuration := _simulationDuration g;
     _frameCount := _frameCount g; _fps := _fps g;
     writer_opened := writer_opened g;
     frames_written := frames_written g;
     progress_lines := progress_lines g ++ [(a, b)] |}.

(** A function that goes on with a value or ends the process by
    [exit(code)]. *)
Inductive ended (A : Type) : Type :=
  | GoesOn (a : A)
  | Exit (code : Z).
Arguments GoesOn {A} a.
Arguments Exit {A} code.

(** [Graphics::loadBackgroundImg]; [imread_ok]: the image read is not
    empty. *)
Definition loadBackgroundImg (imread_ok : bool) (g : Graphics) : ended Graphics :=
  if negb imread_ok then Exit 1
  else GoesOn (set_images (_images g ++ [Image; Image; Image]) g).

(** [Graphics::initializeVideoWriter]; [open_ok]: the writer is opened
    after [open]. *)
Definition initializeVideoWriter (open_ok : bool) (g : Graphics)
    : result (ended Graphics) :=
  _ ← at_ (_images g) 0;
  if negb open_ok then Return (Exit 1)
  else Return (GoesOn (set_writer_opened true g)).

(** [Graphics::drawTrafficObjects]: the two working images are reset
    from the first, the objects drawn, the result written as a frame. *)
Definition drawTrafficObjects (g : Graphics) : result Graphics :=
  _ ← at_ (_images g) 1; bg ← at_ (_images g) 0;
  let g := set_images (<[1%nat := bg]> (_images g)) g in
  _ ← at_ (_images g) 2; bg ← at_ (_images g) 0;
  let g := set_images (<[2%nat := bg]> (_images g)) g in
  Return (write_frame g).

(** The [while (_frameCount < totalFrames)] loop of
    [Graphics::simulate]. *)
Fixpoint simulate_loop (fuel : nat) (totalFrames : Z) (g : Graphics)
    : result Graphics :=
  if bool_decide (_frameCount g < totalFrames)
  then
    match fuel with
    | O => NoFuel
    | S fuel' =>
        g ← drawTrafficObjects g;
        let g := count_frame g in
        if bool_decide (_fps g = 0) then Undef
        else
          let g :=
            if bool_decide (_frameCount g `rem` _fps g = 0)
            then print_progress (_frameCount g `quot` _fps g)
                   (_simulationDuration g) g
            else g in
          simulate_loop fuel' totalFrames g
    end
  else Return g.

(** [Graphics::simulate]; the product of two [int] that is no [int] is
    undefined. *)
Definition Graphics_simulate (fuel : nat) (imread_ok open_ok : bool)
    (g : Graphics) : result (ended Graphics) :=
  match loadBackgroundImg imread_ok g with
  | Exit code => Return (Exit code)
  | GoesOn g =>
      e ← initializeVideoWriter open_ok g;
      match e with
      | Exit code => Return (Exit code)
      | GoesOn g =>
          let totalFrames := _simulationDuration g * _fps g in
          if bool_decide (INT_MIN <= totalFrames <= INT_MAX)
          then g ← simulate_loop fuel totalFrames g; Return (GoesOn g)
          else Undef
      end
  end.

(** The progress lines for the seconds [first] to [last] of [total]. *)
Definition seconds_done (first last total : Z) : list (Z * Z) :=
  (fun k => (k, total)) <$> seqZ first (last - first + 1).

(** The [Graphics] object as [main] sets it up from the options and
    the file name of the city map. *)
Definition main_graphics (o : Options) (backgroundImg : string) : Graphics :=
  setSimulationDuration (simulationDuration o)
    (setVideoFilename (outputVideo o)
       (setBgFilename backgroundImg Graphics_new)).

(** * Properties *)

(** ** The phase channel *)

Module MessageQueueFacts.
Import MessageQueue.
Section WithT.
Context {T : Type}.
Implicit Types (mq : t T) (msg : T) (msgs : list T).

Lemma send_all_queue msgs mq :
  _queue (send_all msgs mq) = _queue mq ++ msgs.
Proof.
  revert mq. induction msgs as [|m msgs IH]; intros mq; simpl.
  - by rewrite app_nil_r.
  - rewrite IH. simpl. by rewrite <- app_assoc.
Qed.

Lemma receive_n_prefix (pre post : list T) :
  receive_n (length pre) (Build (pre ++ post)) = Some (pre, Build post).
Proof.
  induction pre as [|x pre IH]; [done|].
  cbn [length receive_n app]. unfold receive at 1. cbn [_queue].
  by rewrite IH.
Qed.

Lemma mq_eta mq : mq = Build (_queue mq).
Proof. by destruct mq. Qed.

End WithT.
End MessageQueueFacts.

(** C6. [send] is total and appends the message at the back of the
    sequence; [receive] on a non-empty channel removes and returns the
    front value, and blocks on the empty one.  So whatever the channel
    held, after a batch of sends the receptions return the old content
    and then the batch, in the order of sending, each value once: after
    them the channel is empty and a further [receive] blocks. *)
Theorem C6_channel_is_fifo {T : Type} (q0 msgs post : list T) (x msg : T) :
  MessageQueue._queue (MessageQueue.send msg (MessageQueue.Build q0)) = q0 ++ [msg]
  /\ MessageQueue.receive (MessageQueue.Build (x :: post))
     = Some (x, MessageQueue.Build post)
  /\ MessageQueue.receive (MessageQueue.Build (@nil T)) = None
  /\ MessageQueue.receive_n (length (q0 ++ msgs))
       (MessageQueue.send_all msgs (MessageQueue.Build q0))
     = Some (q0 ++ msgs, MessageQueue.Build [])
  /\ MessageQueue.receive_n (length msgs)
       (MessageQueue.send_all (msgs ++ post) (MessageQueue.Build []))
     = Some (msgs, MessageQueue.Build post).
Proof.
  repeat split; try reflexivity.
  - rewrite (MessageQueueFacts.mq_eta (MessageQueue.send_all msgs _)).
    rewrite MessageQueueFacts.send_all_queue. simpl.
    rewrite <- (app_nil_r (q0 ++ msgs)) at 2.
    apply MessageQueueFacts.receive_n_prefix.
  - rewrite (MessageQueueFacts.mq_eta (MessageQueue.send_all (msgs ++ post) _)).
    rewrite MessageQueueFacts.send_all_queue. simpl.
    apply MessageQueueFacts.receive_n_prefix.
Qed.

(** ** Waiting for green *)

(** Every buffer is a run of reds, followed or not by a green. *)
Lemma reds_then_green (q : list TrafficLightPhase) :
  (exists n, q = replicate n red)
  \/ (exists n rest, q = replicate n red ++ green :: rest).
Proof.
  induction q as [|ph q IH]; [left; by exists O|].
  destruct ph.
  - destruct IH as [[n ->]|(n & rest & ->)].
    + left. by exists (S n).
    + right. by exists (S n), rest.
  - right. by exists O, q.
Qed.

Lemma waitForGreen_loop_reds cur n :
  waitForGreen_loop cur (replicate n red) = Blocked (replicate n red) (light cur []).
Proof. induction n as [|n IH]; simpl; [done|]. by rewrite IH. Qed.

Lemma waitForGreen_loop_green cur n rest :
  waitForGreen_loop cur (replicate n red ++ green :: rest)
  = Returned (replicate n red ++ [green]) (light cur rest).
Proof. induction n as [|n IH]; simpl; [done|]. by rewrite IH. Qed.

(** The loop as turns of [waitForGreen_iter]. *)
Lemma waitForGreen_unfold tl :
  waitForGreen tl =
  match waitForGreen_iter tl with
  | None => Blocked [] tl
  | Some (ph, true, tl') => Returned [ph] tl'
  | Some (ph, false, tl') => received_cons ph (waitForGreen tl')
  end.
Proof.
  destruct tl as [cur [q]]. unfold waitForGreen, waitForGreen_iter.
  destruct q as [|ph q]; simpl; [done|].
  case_bool_decide; done.
Qed.

(** C5. Whatever the channel delivers, [waitForGreen] receives value
    after value, drops the reds and returns on the first green, having
    received exactly the reds before it and that green; what follows
    stays in the channel.  On reds only it does not return: it is
    blocked in [receive] on the emptied channel.  Every delivered
    sequence is of one of the two forms. *)
Theorem C5_waitForGreen_returns_on_first_green
    (cur : TrafficLightPhase) (n : nat) (rest q : list TrafficLightPhase) :
  waitForGreen (light cur (replicate n red ++ green :: rest))
  = Returned (replicate n red ++ [green]) (light cur rest)
  /\ waitForGreen (light cur (replicate n red))
     = Blocked (replicate n red) (light cur [])
  /\ ((exists k, q = replicate k red)
      \/ (exists k rest', q = replicate k red ++ green :: rest')).
Proof.
  split; [apply waitForGreen_loop_green|].
  split; [apply waitForGreen_loop_reds|apply reds_then_green].
Qed.

(** C4, as stated, fails: with the phase green and a green buffered,
    [waitForGreen] receives from the channel and changes it. *)
Lemma C4_waitForGreen_touches_channel :
  ~ (forall tl : TrafficLight,
        getCurrentPhase tl = green -> waitForGreen tl = Returned [] tl).
Proof.
  intros H. specialize (H (light green [green]) eq_refl). discriminate H.
Qed.

Lemma waitForGreen_loop_receives cur q tl' :
  waitForGreen_loop cur q <> Returned [] tl'.
Proof.
  destruct q as [|ph q]; simpl; [done|].
  case_bool_decide; [done|].
  destruct (waitForGreen_loop cur q); done.
Qed.

(** C4, amended. The check of the phase is made by the caller,
    [addVehicleToQueue]: with the phase green it does not call
    [waitForGreen], no value is received and the traffic light with its
    channel is as before; with the phase red it calls [waitForGreen].
    [waitForGreen] itself does not read the current phase: its result
    is that of its loop on the channel, and it never returns without a
    reception. *)
Theorem C4_check_is_in_caller (cur : TrafficLightPhase)
    (q : list TrafficLightPhase) (tl' : TrafficLight) :
  check_then_wait (light green q) = Returned [] (light green q)
  /\ check_then_wait (light red q) = waitForGreen (light red q)
  /\ waitForGreen (light cur q) <> Returned [] tl'
  /\ waitForGreen (light cur q)
     = match waitForGreen (light red q) with
       | Returned l t => Returned l (light cur (MessageQueue._queue (_messageQueue t)))
       | Blocked l t => Blocked l (light cur (MessageQueue._queue (_messageQueue t)))
       end.
Proof.
  repeat split.
  - apply waitForGreen_loop_receives.
  - unfold waitForGreen. simpl.
    induction q as [|ph q IH]; simpl; [done|].
    case_bool_decide; [done|]. rewrite IH.
    destruct (waitForGreen_loop red q); done.
Qed.

(** ** Streets of an intersection *)

Lemma queryStreets_loop_filter incoming streets outgoings :
  queryStreets_loop incoming streets outgoings
  = outgoings ++ filter (fun it => getID incoming <> getID it) streets.
Proof.
  revert outgoings. induction streets as [|it rest IH]; intros outgoings; simpl.
  - by rewrite app_nil_r.
  - rewrite filter_cons, IH. case_bool_decide; case_decide; try done.
    by rewrite <- app_assoc.
Qed.

Lemma addStreets_streets streets i :
  _streets (addStreets streets i) = _streets i ++ streets.
Proof.
  revert i. induction streets as [|s streets IH]; intros i; simpl.
  - by rewrite app_nil_r.
  - rewrite IH. simpl. by rewrite <- app_assoc.
Qed.

(** C10. [queryStreets(s)] returns the connected streets whose id
    differs from the id of [s], in the order of [_streets], which is the
    order of registration by [addStreet]; the intersection is left as it
    was.  If no connected street has the id of [s], all of them are
    returned. *)
Theorem C10_queryStreets_filters_by_id (s : Street) (i : Intersection)
    (registered : list Street) :
  (queryStreets s i).1 = filter (fun it => getID it <> getID s) (_streets i)
  /\ (queryStreets s i).2 = i
  /\ _streets (addStreets registered Intersection_new) = registered
  /\ (Forall (fun it => getID it <> getID s) (_streets i) ->
      (queryStreets s i).1 = _streets i).
Proof.
  assert (Hq : (queryStreets s i).1
               = filter (fun it => getID it <> getID s) (_streets i)).
  { unfold queryStreets. simpl. rewrite queryStreets_loop_filter. simpl.
    apply list_filter_iff. intros it. split; intros H E; apply H; done. }
  repeat split; [done|apply addStreets_streets|].
  intros Hall. rewrite Hq. clear Hq.
  induction Hall as [|it rest Hit Hrest IH]; [done|].
  rewrite filter_cons, decide_True by done. by rewrite IH.
Qed.

Lemma C10_queryStreets_witness :
  (queryStreets {| street_id := 7 |}
     (addStreets [ {| street_id := 1 |};
                   {| street_id := 2 |} ] Intersection_new)).1
  = [ {| street_id := 1 |};
      {| street_id := 2 |} ].
Proof.
  refine (proj2 (proj2 (proj2
    (C10_queryStreets_filters_by_id {| street_id := 7 |}
       (addStreets [ {| street_id := 1 |};
                     {| street_id := 2 |} ] Intersection_new)
       []))) _).
  repeat constructor; vm_compute; discriminate.
Defined.

(** ** The waiting queue *)

Lemma fulfil_all_nil st : fulfil_all [] st = st.
Proof. destruct st. unfold fulfil_all. simpl. by rewrite app_nil_r. Qed.

Lemma fulfil_all_cons p ps st :
  fulfil_all (p :: ps) st = fulfil_all ps (fulfil_all [p] st).
Proof. unfold fulfil_all. simpl. by rewrite <- app_assoc. Qed.

Lemma fulfil_all_lookup ps st q :
  shared (fulfil_all ps st) !! q
  = if decide (q ∈ ps) then Some true else shared st !! q.
Proof.
  revert st. induction ps as [|p ps IH]; intros st.
  - rewrite fulfil_all_nil. rewrite decide_False; [done|apply not_elem_of_nil].
  - rewrite fulfil_all_cons, IH. simpl.
    destruct (decide (q ∈ ps)) as [Hin|Hnin].
    + rewrite decide_True; [done|by right].
    + destruct (decide (q = p)) as [->|Hne].
      * rewrite lookup_insert_eq. rewrite decide_True; [done|by left].
      * rewrite lookup_insert_ne by done.
        rewrite decide_False; [done|]. by intros [?|?]%elem_of_cons.
Qed.

Lemma permit_front_any v vs p ps st :
  shared st !! p = Some false ->
  permitEntryToFirstInQueue {| _vehicles := v :: vs; _promises := p :: ps |} st
  = Done ({| _vehicles := vs; _promises := ps |}, fulfil_all [p] st).
Proof.
  intros Hp. unfold permitEntryToFirstInQueue, set_value. simpl. by rewrite Hp.
Qed.

Lemma permit_front v p es st :
  shared st !! p = Some false ->
  permitEntryToFirstInQueue (queue_of ((v, p) :: es)) st
  = Done (queue_of es, fulfil_all [p] st).
Proof. apply permit_front_any. Qed.

Lemma permit_done es st w' st' :
  permitEntryToFirstInQueue (queue_of es) st = Done (w', st') ->
  exists v p es', es = (v, p) :: es' /\ shared st !! p = Some false
                  /\ w' = queue_of es' /\ st' = fulfil_all [p] st.
Proof.
  destruct es as [|[v p] es]; [done|].
  unfold permitEntryToFirstInQueue, set_value. simpl.
  destruct (shared st !! p) as [[]|] eqn:Hp; try done.
  intros [= <- <-]. by exists v, p, es.
Qed.

Lemma pushBack_queue_of v p es :
  pushBack v p (queue_of es) = queue_of (es ++ [(v, p)]).
Proof. unfold pushBack, queue_of. simpl. by rewrite !fmap_app. Qed.

Lemma wv_run_app ops1 ops2 ws :
  wv_run (ops1 ++ ops2) ws
  = match wv_run ops1 ws with
    | Done ws' => wv_run ops2 ws'
    | Throws e => Throws e
    | Undefined => Undefined
    end.
Proof.
  revert ws. induction ops1 as [|op ops1 IH]; intros ws; simpl; [done|].
  destruct (wv_apply op ws); auto.
Qed.

Lemma wv_run_push_all es0 es st :
  wv_run (push_all es) (queue_of es0, st) = Done (queue_of (es0 ++ es), st).
Proof.
  revert es0. induction es as [|[v p] es IH]; intros es0; simpl.
  - by rewrite app_nil_r.
  - rewrite pushBack_queue_of, IH. by rewrite <- app_assoc.
Qed.

Lemma wv_run_permit_n granted : forall waiting st,
  NoDup granted.*2 ->
  (forall q, q ∈ granted.*2 -> shared st !! q = Some false) ->
  wv_run (permit_n (length granted)) (queue_of (granted ++ waiting), st)
  = Done (queue_of waiting, fulfil_all granted.*2 st).
Proof.
  induction granted as [|[v p] granted IH]; intros waiting st Hnd Hpend.
  - simpl. by rewrite fulfil_all_nil.
  - rewrite fmap_cons in Hnd, Hpend. rewrite fmap_cons.
    apply NoDup_cons in Hnd as [Hp Hnd].
    cbn [length permit_n replicate app wv_run wv_apply fst snd].
    rewrite permit_front by (apply Hpend; by left).
    fold (permit_n (length granted)).
    rewrite IH; [by rewrite (fulfil_all_cons p granted.*2)|exact Hnd|].
    intros q Hq. rewrite fulfil_all_lookup.
    rewrite decide_False; [apply Hpend; by right|].
    intros ->%list_elem_of_singleton. done.
Qed.

(** The shape of every run that completes: grants take from the front
    of what was pushed, in the order of pushing. *)
Lemma wv_run_shape ops : forall es st w' st',
  wv_run ops (queue_of es, st) = Done (w', st') ->
  (permits ops <= length (es ++ pushes ops))%nat
  /\ w' = queue_of (drop (permits ops) (es ++ pushes ops))
  /\ st' = fulfil_all (take (permits ops) (es ++ pushes ops)).*2 st.
Proof.
  induction ops as [|[v p|] ops IH]; intros es st w' st' Hrun.
  - simpl in *. injection Hrun as <- <-. rewrite app_nil_r.
    split; [lia|]. simpl. by rewrite fulfil_all_nil.
  - simpl in Hrun. rewrite pushBack_queue_of in Hrun.
    apply IH in Hrun. simpl. by rewrite <- app_assoc in Hrun.
  - simpl in Hrun.
    destruct (permitEntryToFirstInQueue (queue_of es) st)
      as [[w1 st1]| |] eqn:Hp; try done.
    apply permit_done in Hp as (v & p & es' & -> & _ & -> & ->).
    apply IH in Hrun as (Hle & -> & ->). simpl.
    split; [lia|]. split; [done|]. symmetry. apply fulfil_all_cons.
Qed.

Lemma int_of_size_small (n : nat) :
  Z.of_nat n <= INT_MAX -> int_of_size n = Z.of_nat n.
Proof.
  unfold int_of_size, INT_MAX. intros H.
  rewrite Z.mod_small; lia.
Qed.

(** C1. On a non-empty queue whose front promise is pending,
    [permitEntryToFirstInQueue] removes the front vehicle and the front
    promise and fulfils that promise, once: the store changes at that
    promise only, the log of [set_value] grows by it, and a second
    [set_value] on it is refused.  The function does not test for the
    empty queue, on which its behaviour is undefined: the test is the
    caller's.  For entries pushed in the order [granted ++ waiting] onto
    the empty queue, with distinct pending promises, as many grants as
    [granted] has entries all succeed, fulfil the promises of [granted]
    in the order of pushing and leave [waiting] in the queue, in order.
    And however pushes and grants are interleaved, a run that completes
    has fulfilled a front part of the pushed promises, in the order of
    pushing, and left the other entries in the queue. *)
Theorem C1_grant_first_is_fifo (v : Vehicle) (vs : list Vehicle)
    (p : promise) (ps : list promise)
    (granted waiting : list (Vehicle * promise)) (st : PromiseStore)
    (ops : list wv_op) (w1 : WaitingVehicles) (st1 : PromiseStore) :
  shared st !! p = Some false ->
  NoDup (granted ++ waiting).*2 ->
  (forall q, q ∈ (granted ++ waiting).*2 -> shared st !! q = Some false) ->
  permitEntryToFirstInQueue {| _vehicles := v :: vs; _promises := p :: ps |} st
  = Done ({| _vehicles := vs; _promises := ps |},
          {| shared := <[p := true]> (shared st);
             set_value_log := set_value_log st ++ [p] |})
  /\ set_value p {| shared := <[p := true]> (shared st);
                    set_value_log := set_value_log st ++ [p] |}
     = Throws promise_already_satisfied
  /\ permitEntryToFirstInQueue WaitingVehicles_new st = Undefined
  /\ (exists st',
      wv_run (push_all (granted ++ waiting) ++ permit_n (length granted))
        (WaitingVehicles_new, st)
      = Done ({| _vehicles := waiting.*1; _promises := waiting.*2 |}, st')
      /\ set_value_log st' = set_value_log st ++ granted.*2
      /\ (forall q, q ∈ granted.*2 -> shared st' !! q = Some true)
      /\ (forall q, q ∉ granted.*2 -> shared st' !! q = shared st !! q))
  /\ (wv_run ops (WaitingVehicles_new, st) = Done (w1, st1) ->
      set_value_log st1
      = set_value_log st ++ (take (permits ops) (pushes ops)).*2
      /\ _vehicles w1 = (drop (permits ops) (pushes ops)).*1
      /\ _promises w1 = (drop (permits ops) (pushes ops)).*2).
Proof.
  intros Hp Hnd Hpend. split; [|split; [|split; [|split]]].
  - by apply permit_front_any.
  - unfold set_value. simpl. by rewrite lookup_insert_eq.
  - reflexivity.
  - exists (fulfil_all granted.*2 st). split; [|split; [done|split]].
    + change WaitingVehicles_new with (queue_of []).
      rewrite wv_run_app, wv_run_push_all. rewrite app_nil_l.
      apply wv_run_permit_n.
      * rewrite fmap_app in Hnd. by apply NoDup_app in Hnd as [? _].
      * intros q Hq. apply Hpend. rewrite fmap_app. apply elem_of_app. by left.
    + intros q Hq. rewrite fulfil_all_lookup. by rewrite decide_True.
    + intros q Hq. rewrite fulfil_all_lookup. by rewrite decide_False.
  - intros Hrun. change WaitingVehicles_new with (queue_of []) in Hrun.
    apply wv_run_shape in Hrun as (_ & -> & ->). done.
Qed.

Lemma C1_grant_first_witness :
  exists st',
    wv_run (push_all ([(10, 0); (11, 1)] ++ [(12, 2)])%nat ++ permit_n 2)
      (WaitingVehicles_new, three_pending)
    = Done ({| _vehicles := [12%nat]; _promises := [2%nat] |}, st')
    /\ set_value_log st' = [0; 1]%nat.
Proof.
  destruct (C1_grant_first_is_fifo 10%nat [] 0%nat []
              [(10, 0); (11, 1)]%nat [(12, 2)]%nat three_pending
              [] WaitingVehicles_new three_pending)
    as (_ & _ & _ & (st' & Hrun & Hlog & _) & _).
  - reflexivity.
  - apply (bool_decide_unpack _). vm_compute. exact I.
  - intros q Hq. simpl in Hq.
    repeat (apply elem_of_cons in Hq as [->|Hq]; [reflexivity|]).
    by apply elem_of_nil in Hq.
  - exists st'. split; [exact Hrun|exact Hlog].
Defined.

(** C9. After every run of [pushBack] and [permitEntryToFirstInQueue]
    from the empty object that completes (every grant found the queue
    non-empty and its front promise pending), the two vectors have the
    same length, the vehicle and the promise at one index were pushed
    together (the queue is what was pushed, without the granted front),
    and [getSize] returns the common length as an [int], which is that
    length itself whenever it fits an [int]. *)
Theorem C9_vectors_stay_aligned (ops : list wv_op)
    (st st' : PromiseStore) (w' : WaitingVehicles) :
  wv_run ops (WaitingVehicles_new, st) = Done (w', st') ->
  length (_vehicles w') = length (_promises w')
  /\ zip (_vehicles w') (_promises w') = drop (permits ops) (pushes ops)
  /\ (forall (i : nat) (v : Vehicle) (p : promise),
        _vehicles w' !! i = Some v -> _promises w' !! i = Some p ->
        pushes ops !! (permits ops + i)%nat = Some (v, p))
  /\ getSize w' = int_of_size (length (_promises w'))
  /\ (Z.of_nat (length (_promises w')) <= INT_MAX ->
      getSize w' = Z.of_nat (length (_promises w'))).
Proof.
  intros Hrun. change WaitingVehicles_new with (queue_of []) in Hrun.
  apply wv_run_shape in Hrun as (Hle & -> & _).
  simpl in *. set (es := drop (permits ops) (pushes ops)).
  assert (Hlen : length es.*1 = length es.*2) by (by rewrite !length_fmap).
  assert (Hzip : zip es.*1 es.*2 = es) by apply zip_fst_snd.
  split; [done|]. split; [done|]. split; [|split].
  - intros i v p Hv Hp. rewrite <- lookup_drop. fold es.
    rewrite list_lookup_fmap in Hv. rewrite list_lookup_fmap in Hp.
    destruct (es !! i) as [[v' p']|]; simpl in *; congruence.
  - unfold getSize. simpl. by rewrite Hlen.
  - intros Hfit. unfold getSize. simpl. rewrite Hlen.
    by apply int_of_size_small.
Qed.

Lemma C9_vectors_witness :
  length (_vehicles {| _vehicles := [11%nat]; _promises := [1%nat] |})
  = length (_promises {| _vehicles := [11%nat]; _promises := [1%nat] |})
  /\ getSize {| _vehicles := [11%nat]; _promises := [1%nat] |} = 1.
Proof.
  destruct (C9_vectors_stay_aligned
              [OpPushBack 10%nat 0%nat; OpPushBack 11%nat 1%nat; OpPermit]
              three_pending (fulfil_all [0%nat] three_pending)
              {| _vehicles := [11%nat]; _promises := [1%nat] |})
    as (Hlen & _ & _ & _ & Hsize).
  - vm_compute. reflexivity.
  - split; [exact Hlen|]. apply Hsize. vm_compute. discriminate.
Defined.

(** ** The scheduler *)

Section Scheduler.
Variable ticks_per_ms : Z.

Lemma iter_toggles inp tl loc :
  timeSinceLastUpdate ticks_per_ms (now_check inp) loc >= cycleDuration loc ->
  cycleThroughPhases_iter ticks_per_ms inp (tl, loc)
  = ({| _currentPhase := toggled (_currentPhase tl);
        _messageQueue :=
          MessageQueue.send (toggled (_currentPhase tl)) (_messageQueue tl) |},
     {| cycleDuration := next_draw inp; lastUpdate := now_reset inp |},
     Some {| sent_phase := toggled (_currentPhase tl);
             measured := timeSinceLastUpdate ticks_per_ms (now_check inp) loc;
             dwell := cycleDuration loc |}).
Proof.
  intros H. unfold cycleThroughPhases_iter.
  rewrite bool_decide_eq_true_2 by done.
  destruct tl as [[] mq]; reflexivity.
Qed.

Lemma iter_holds inp tl loc :
  timeSinceLastUpdate ticks_per_ms (now_check inp) loc < cycleDuration loc ->
  cycleThroughPhases_iter ticks_per_ms inp (tl, loc) = (tl, loc, None).
Proof.
  intros H. unfold cycleThroughPhases_iter.
  rewrite bool_decide_eq_false_2; [done|lia].
Qed.

Lemma iter_cases inp tl loc :
  (timeSinceLastUpdate ticks_per_ms (now_check inp) loc >= cycleDuration loc
   /\ cycleThroughPhases_iter ticks_per_ms inp (tl, loc)
      = ({| _currentPhase := toggled (_currentPhase tl);
            _messageQueue :=
              MessageQueue.send (toggled (_currentPhase tl)) (_messageQueue tl) |},
         {| cycleDuration := next_draw inp; lastUpdate := now_reset inp |},
         Some {| sent_phase := toggled (_currentPhase tl);
                 measured := timeSinceLastUpdate ticks_per_ms (now_check inp) loc;
                 dwell := cycleDuration loc |}))
  \/ (timeSinceLastUpdate ticks_per_ms (now_check inp) loc < cycleDuration loc
      /\ cycleThroughPhases_iter ticks_per_ms inp (tl, loc) = (tl, loc, None)).
Proof.
  destruct (decide (timeSinceLastUpdate ticks_per_ms (now_check inp) loc >= cycleDuration loc)).
  - left. split; [done|by apply iter_toggles].
  - right. split; [lia|apply iter_holds; lia].
Qed.

(** What a run of the loop leaves: the values sent alternate, starting
    with the other phase than the one it began with, and are appended
    to the channel in that order. *)
Lemma cycle_alternates inps : forall tl loc,
  sent_phase <$> (cycleThroughPhases_run ticks_per_ms inps (tl, loc)).2
  = alternate (toggled (_currentPhase tl))
      (length (cycleThroughPhases_run ticks_per_ms inps (tl, loc)).2)
  /\ MessageQueue._queue
       (_messageQueue (cycleThroughPhases_run ticks_per_ms inps (tl, loc)).1.1)
     = MessageQueue._queue (_messageQueue tl)
       ++ (sent_phase <$> (cycleThroughPhases_run ticks_per_ms inps (tl, loc)).2)
  /\ _currentPhase (cycleThroughPhases_run ticks_per_ms inps (tl, loc)).1.1
     = Nat.iter (length (cycleThroughPhases_run ticks_per_ms inps (tl, loc)).2)
         toggled (_currentPhase tl).
Proof.
  induction inps as [|inp inps IH]; intros tl loc.
  - simpl. by rewrite app_nil_r.
  - cbn [cycleThroughPhases_run].
    destruct (iter_cases inp tl loc) as [[_ ->]|[_ ->]].
    + match goal with
      | |- context [cycleThroughPhases_run _ inps (?t, ?l)] =>
          specialize (IH t l);
          destruct (cycleThroughPhases_run ticks_per_ms inps (t, l))
            as [[tl2 loc2] tgs]
      end.
      cbn [fst snd option_list option_rect app _currentPhase _messageQueue]
        in *.
      rewrite fmap_cons. cbn [length alternate sent_phase].
      destruct IH as (IH1 & IH2 & IH3). split; [|split].
      * by rewrite IH1.
      * rewrite IH2. simpl. by rewrite <- app_assoc.
      * rewrite IH3. by rewrite Nat.iter_succ_r.
    + specialize (IH tl loc).
      destruct (cycleThroughPhases_run ticks_per_ms inps (tl, loc))
        as [[tl2 loc2] tgs].
      exact IH.
Qed.


End Scheduler.

(** Runs of the loop, turn after turn. *)
Section SchedulerRuns.
Variable ticks_per_ms : Z.



Lemma cycle_run_app inps1 inps2 st :
  cycleThroughPhases_run ticks_per_ms (inps1 ++ inps2) st
  = ((cycleThroughPhases_run ticks_per_ms inps2
        (cycleThroughPhases_run ticks_per_ms inps1 st).1).1,
     (cycleThroughPhases_run ticks_per_ms inps1 st).2
     ++ (cycleThroughPhases_run ticks_per_ms inps2
           (cycleThroughPhases_run ticks_per_ms inps1 st).1).2).
Proof.
  revert st. induction inps1 as [|inp inps1 IH]; intros st.
  - simpl. by destruct (cycleThroughPhases_run ticks_per_ms inps2 st) as [[??] ?].
  - cbn [app cycleThroughPhases_run].
    destruct (cycleThroughPhases_iter ticks_per_ms inp st) as [[tl1 loc1] tg].
    rewrite IH.
    destruct (cycleThroughPhases_run ticks_per_ms inps1 (tl1, loc1))
      as [[tl2 loc2] tgs].
    cbn [fst snd].
    destruct (cycleThroughPhases_run ticks_per_ms inps2 (tl2, loc2))
      as [[tl3 loc3] tgs'].
    cbn [fst snd]. by rewrite app_assoc.
Qed.

Lemma cycle_run_one inp st :
  cycleThroughPhases_run ticks_per_ms [inp] st
  = ((cycleThroughPhases_iter ticks_per_ms inp st).1,
     option_list (cycleThroughPhases_iter ticks_per_ms inp st).2).
Proof.
  cbn [cycleThroughPhases_run].
  destruct (cycleThroughPhases_iter ticks_per_ms inp st) as [[tl1 loc1] tg].
  cbn [fst snd]. by rewrite app_nil_r.
Qed.




Lemma alternate_snoc n : forall ph,
  alternate ph (S n) = alternate ph n ++ [Nat.iter n toggled ph].
Proof.
  induction n as [|n IH]; intros ph; [done|].
  change (alternate ph (S (S n))) with (ph :: alternate (toggled ph) (S n)).
  rewrite IH. cbn [alternate app]. by rewrite Nat.iter_succ_r.
Qed.

End SchedulerRuns.

(** C7. In a turn of the loop in which the measured time has reached
    the dwell duration, the phase becomes the other one, the value put
    at the back of the channel is the new current phase, the dwell
    duration is redrawn and the time stamp renewed.  So from the initial
    red light, whatever the clock and the draws are: the channel holds
    the values sent, which alternate, green first; the current phase is
    the last of them (red if there is none); and a turn that finds the
    duration reached, after any turns before it, leaves the channel
    with one value more, the new current phase. *)
Theorem C7_toggle_sends_new_phase (ticks_per_ms : Z) (inp : CycleInput)
    (tl : TrafficLight) (loc loc0 : CycleLocals) (inps : list CycleInput) :
  timeSinceLastUpdate ticks_per_ms (now_check inp) loc >= cycleDuration loc ->
  _currentPhase (cycleThroughPhases_iter ticks_per_ms inp (tl, loc)).1.1
  = toggled (_currentPhase tl)
  /\ MessageQueue._queue
       (_messageQueue (cycleThroughPhases_iter ticks_per_ms inp (tl, loc)).1.1)
     = MessageQueue._queue (_messageQueue tl)
       ++ [_currentPhase (cycleThroughPhases_iter ticks_per_ms inp (tl, loc)).1.1]
  /\ sent_phase <$> (cycleThroughPhases_iter ticks_per_ms inp (tl, loc)).2
     = Some (toggled (_currentPhase tl))
  /\ (cycleThroughPhases_iter ticks_per_ms inp (tl, loc)).1.2
     = {| cycleDuration := next_draw inp; lastUpdate := now_reset inp |}
  /\ sent_phase <$>
       (cycleThroughPhases_run ticks_per_ms inps (TrafficLight_new, loc0)).2
     = alternate green
         (length (cycleThroughPhases_run ticks_per_ms inps
                    (TrafficLight_new, loc0)).2)
  /\ MessageQueue._queue
       (_messageQueue
          (cycleThroughPhases_run ticks_per_ms inps (TrafficLight_new, loc0)).1.1)
     = alternate green
         (length (cycleThroughPhases_run ticks_per_ms inps
                    (TrafficLight_new, loc0)).2)
  /\ _currentPhase
       (cycleThroughPhases_run ticks_per_ms inps (TrafficLight_new, loc0)).1.1
     = Nat.iter
         (length (cycleThroughPhases_run ticks_per_ms inps
                    (TrafficLight_new, loc0)).2)
         toggled red
  /\ ((cycleThroughPhases_run ticks_per_ms inps (TrafficLight_new, loc0)).1
      = (tl, loc) ->
      cycleThroughPhases_run ticks_per_ms (inps ++ [inp]) (TrafficLight_new, loc0)
      = (light (toggled (_currentPhase tl))
           (alternate green
              (S (length (cycleThroughPhases_run ticks_per_ms inps
                            (TrafficLight_new, loc0)).2))),
         {| cycleDuration := next_draw inp; lastUpdate := now_reset inp |},
         (cycleThroughPhases_run ticks_per_ms inps (TrafficLight_new, loc0)).2
         ++ [ {| sent_phase := toggled (_currentPhase tl);
                 measured :=
                   timeSinceLastUpdate ticks_per_ms (now_check inp) loc;
                 dwell := cycleDuration loc |} ])
      /\ last (alternate green
                 (S (length (cycleThroughPhases_run ticks_per_ms inps
                               (TrafficLight_new, loc0)).2)))
         = Some (toggled (_currentPhase tl))).
Proof.
  intros Hge.
  destruct (cycle_alternates ticks_per_ms inps TrafficLight_new loc0)
    as (Hsent & Hq & Hph).
  rewrite Hsent in Hq. cbn [TrafficLight_new _messageQueue MessageQueue._queue
                            _currentPhase app] in Hq, Hph.
  split_and!; try (rewrite iter_toggles by done; reflexivity);
    [exact Hsent|exact Hq|exact Hph|].
  intros Est.
  rewrite cycle_run_app, cycle_run_one, Est, iter_toggles by done.
  rewrite Est in Hq, Hph. cbn [fst snd] in Hq, Hph.
  set (n := length _) in *. clearbody n.
  rewrite alternate_snoc.
  assert (Hnew : toggled (_currentPhase tl) = Nat.iter n toggled green).
  { rewrite Hph. change green with (toggled red). by rewrite <- Nat.iter_succ_r. }
  split; [|by rewrite last_snoc, Hnew].
  cbn [fst snd option_list option_rect]. unfold light, MessageQueue.send.
  by rewrite Hq, Hnew.
Qed.

Lemma C7_toggle_witness :
  timeSinceLastUpdate 1000000 10501060000
    {| cycleDuration := 4500; lastUpdate := 6001050000 |} >= 4500
  /\ cycleThroughPhases_run 1000000
       [ {| now_check := 5999990000; now_reset := 5999990000; next_draw := 4500 |};
         {| now_check := 6001040000; now_reset := 6001050000; next_draw := 4500 |};
         {| now_check := 10501060000; now_reset := 10501070000; next_draw := 5000 |} ]
       (TrafficLight_new, cycleThroughPhases_init 6000 0)
     = (light red [green; red],
        {| cycleDuration := 5000; lastUpdate := 10501070000 |},
        [ {| sent_phase := green; measured := 6001; dwell := 6000 |};
          {| sent_phase := red; measured := 4500; dwell := 4500 |} ]).
Proof.
  assert (Hge : timeSinceLastUpdate 1000000 10501060000
                  {| cycleDuration := 4500; lastUpdate := 6001050000 |} >= 4500)
    by (vm_compute; discriminate).
  split; [exact Hge|].
  refine (proj1 (proj2 (proj2 (proj2 (proj2 (proj2 (proj2 (proj2
    (C7_toggle_sends_new_phase 1000000
       {| now_check := 10501060000; now_reset := 10501070000; next_draw := 5000 |}
       (light green [green])
       {| cycleDuration := 4500; lastUpdate := 6001050000 |}
       (cycleThroughPhases_init 6000 0)
       [ {| now_check := 5999990000; now_reset := 5999990000; next_draw := 4500 |};
         {| now_check := 6001040000; now_reset := 6001050000; next_draw := 4500 |} ]
       Hge))))))) _)).
  vm_compute. reflexivity.
Defined.




(** ** The running system *)

Lemma permit_inv w st w' st' :
  permitEntryToFirstInQueue w st = Done (w', st') ->
  exists v p,
    _vehicles w = v :: _vehicles w' /\ _promises w = p :: _promises w'
    /\ shared st !! p = Some false /\ st' = fulfil_all [p] st.
Proof.
  unfold permitEntryToFirstInQueue, set_value.
  destruct (_promises w) as [|p ps] eqn:Hps; [done|].
  destruct (shared st !! p) as [[]|] eqn:Hp; try done.
  destruct (_vehicles w) as [|v vs] eqn:Hvs; [done|].
  intros [= <- <-]. by exists v, p.
Qed.

Lemma getSize_pos_nonempty w : getSize w > 0 -> _vehicles w <> [].
Proof. unfold getSize. intros H E. rewrite E in H. vm_compute in H. done. Qed.

Lemma queue_inv_init st0 :
  shared st0 = ∅ -> queue_inv WaitingVehicles_new st0.
Proof.
  intros E. split; simpl.
  - done.
  - constructor.
  - intros p Hp. by apply elem_of_nil in Hp.
  - intros f. rewrite E. by rewrite lookup_empty.
Qed.

Lemma new_promise_fresh st : shared st !! (new_promise st).1 = None.
Proof. simpl. apply not_elem_of_dom. apply is_fresh. Qed.

Lemma queue_inv_push_fresh v p w st :
  shared st !! p = None ->
  queue_inv w st ->
  queue_inv (pushBack v p w)
    {| shared := <[p := false]> (shared st);
       set_value_log := set_value_log st |}.
Proof.
  intros Hfresh [Hlen Hnd Hpend Hlog].
  split; simpl.
  - rewrite !length_app. simpl. lia.
  - apply NoDup_app. split; [done|]. split; [|apply NoDup_singleton].
    intros q Hq ->%list_elem_of_singleton. apply Hpend in Hq. congruence.
  - intros q [Hq| ->%list_elem_of_singleton]%elem_of_app.
    + rewrite lookup_insert_ne; [by apply Hpend|].
      intros <-. apply Hpend in Hq. congruence.
    + apply lookup_insert_eq.
  - intros f Hf. apply Hlog.
    destruct (decide (f = p)) as [->|Hne].
    + rewrite lookup_insert_eq in Hf. done.
    + by rewrite lookup_insert_ne in Hf.
Qed.

Lemma queue_inv_push v w st :
  queue_inv w st ->
  queue_inv (pushBack v (new_promise st).1 w) (new_promise st).2.
Proof. apply queue_inv_push_fresh, new_promise_fresh. Qed.

Lemma queue_inv_permit w st w' st' :
  queue_inv w st ->
  permitEntryToFirstInQueue w st = Done (w', st') ->
  queue_inv w' st'.
Proof.
  intros [Hlen Hnd Hpend Hlog] (v & p & Hv & Hp & Hpp & ->)%permit_inv.
  rewrite Hv, Hp in *. apply NoDup_cons in Hnd as [Hnin Hnd].
  split; simpl.
  - simpl in Hlen. lia.
  - done.
  - intros q Hq. rewrite lookup_insert_ne; [apply Hpend; by right|].
    by intros <-.
  - intros f Hf. apply elem_of_app.
    destruct (decide (f = p)) as [->|Hne]; [right; by left|left].
    apply Hlog. by rewrite lookup_insert_ne in Hf.
Qed.

Lemma permit_total w st :
  queue_inv w st -> _vehicles w <> [] ->
  exists w' st', permitEntryToFirstInQueue w st = Done (w', st').
Proof.
  intros [Hlen Hnd Hpend Hlog] Hne.
  unfold permitEntryToFirstInQueue, set_value.
  destruct (_vehicles w) as [|v vs] eqn:Hv; [done|].
  destruct (_promises w) as [|p ps] eqn:Hp; [done|].
  rewrite (Hpend p) by by left. eauto.
Qed.

Lemma processVehicleQueue_iter_cases i st :
  queue_inv (_waitingVehicles i) st ->
  (getSize (_waitingVehicles i) > 0 /\ _isBlocked i = false
   /\ exists w' st',
       permitEntryToFirstInQueue (_waitingVehicles i) st = Done (w', st')
       /\ processVehicleQueue_iter i st
          = Done (set_waitingVehicles w' (setIsBlocked true i), st'))
  \/ ((~ getSize (_waitingVehicles i) > 0 \/ _isBlocked i = true)
      /\ processVehicleQueue_iter i st = Done (i, st)).
Proof.
  intros Hinv. unfold processVehicleQueue_iter.
  case_bool_decide as Hsize; simpl.
  - destruct (_isBlocked i) eqn:Hb; simpl.
    + right. split; [by right|done].
    + left. split; [done|]. split; [done|].
      destruct (permit_total _ st Hinv (getSize_pos_nonempty _ Hsize))
        as (w' & st' & Hp).
      exists w', st'. split; [done|]. by rewrite Hp.
  - right. split; [by left|done].
Qed.

Section SystemFacts.
Variable ticks_per_ms : Z.

Ltac step_cases H :=
  match type of H with
  | step _ ?a ?s = Some _ =>
      destruct a as [v|v| |v|inp]; cbn [step] in H;
      [ destruct (threads s !! v) as [[]|] eqn:Hpc; simplify_eq
      | destruct (threads s !! v) as [p|] eqn:Hpc; [|done];
        destruct p; cbn [vehicle_step] in H;
        repeat case_match; simplify_eq
      | idtac
      | simplify_eq
      | destruct (cycleThroughPhases_iter ticks_per_ms inp
                    (_trafficLight (inter s), sched s))
          as [[tl' loc'] tg] eqn:Hiter; simplify_eq ]
  end.

Lemma step_queue_inv a s s' :
  sys_queue_inv s -> step ticks_per_ms a s = Some s' -> sys_queue_inv s'.
Proof.
  unfold sys_queue_inv. intros Hinv Hstep.
  step_cases Hstep; try exact Hinv.
  - match goal with H : new_promise _ = _ |- _ =>
      pose proof (queue_inv_push v _ _ Hinv) as Hq; rewrite H in Hq
    end. exact Hq.
  - destruct (processVehicleQueue_iter_cases _ _ Hinv)
      as [(_ & _ & w' & st' & Hp & E)|[_ E]]; rewrite E in Hstep;
      simplify_eq; simpl; [|done].
    by eapply queue_inv_permit.
Qed.

Lemma set_inter_store_id s : set_store (store s) (set_inter (inter s) s) = s.
Proof. by destruct s. Qed.

(** The two outcomes of a turn of the dispatch loop. *)
Lemma dispatch_effect s s' :
  sys_queue_inv s ->
  step ticks_per_ms Dispatch s = Some s' ->
  (s' = s
   /\ (~ getSize (_waitingVehicles (inter s)) > 0 \/ _isBlocked (inter s) = true))
  \/ (exists v p w',
        _isBlocked (inter s) = false
        /\ getSize (_waitingVehicles (inter s)) > 0
        /\ _vehicles (_waitingVehicles (inter s)) = v :: _vehicles w'
        /\ _promises (_waitingVehicles (inter s)) = p :: _promises w'
        /\ shared (store s) !! p = Some false
        /\ s' = set_store (fulfil_all [p] (store s))
                  (set_inter
                     (set_waitingVehicles w' (setIsBlocked true (inter s))) s)).
Proof.
  intros Hq Hstep. cbn [step] in Hstep.
  destruct (processVehicleQueue_iter_cases _ _ Hq)
    as [(Hsz & Hb & w' & st' & Hp & E)|[Hcond E]]; rewrite E in Hstep;
    simplify_eq.
  - right. apply permit_inv in Hp as (v & p & Hv & Hps & Hpend & ->).
    by exists v, p, w'.
  - left. split; [apply set_inter_store_id|done].
Qed.

Ltac at_thread v :=
  let v0 := fresh "v0" in
  let p0 := fresh "p0" in
  let Hl := fresh "Hl" in
  intros v0 p0 ? Hl ?;
  destruct (decide (v0 = v)) as [->|?];
  [ rewrite lookup_insert_eq in Hl | rewrite lookup_insert_ne in Hl by done ];
  simplify_eq/=; repeat case_bool_decide; simplify_eq; eauto.

Ltac order_step Hord Hadm :=
  let v0 := fresh "v0" in
  intros v0; cbn [light_after_admission light_event];
  split; [|apply Hord];
  try done;
  intros ->%bool_decide_eq_true_1; eapply Hadm; eauto; done.

Lemma step_threads_inv a s s' :
  threads_inv s -> sys_queue_inv s ->
  step ticks_per_ms a s = Some s' -> threads_inv s'.
Proof.
  intros [Hready Hadm Hseen Hord] Hq Hstep.
  step_cases Hstep.
  all: split; cbn [store threads trace goto set_mtx set_store set_inter set_sched app].
  all: try exact Hready; try exact Hadm; try exact Hseen; try exact Hord.
  all: try (at_thread v; fail).
  all: try (order_step Hord Hadm; fail).
  1: { (* AtPush *)
    match goal with H : new_promise _ = _ |- _ =>
      pose proof (new_promise_fresh (store s)) as Hfresh;
      unfold new_promise in H, Hfresh; simplify_eq/=
    end.
    at_thread v.
    rewrite lookup_insert_ne; [eauto|].
    intros <-. erewrite Hready in Hfresh; eauto. done.
  }
  1: { (* AtWait *)
    match goal with H : future_ready _ _ = true |- _ =>
      apply bool_decide_eq_true_1 in H
    end.
    at_thread v.
  }
  1: { (* AtCheck, green *)
    at_thread v.
    all: destruct (getCurrentPhase (_trafficLight (inter s))); done.
  }
  1: { (* InWaitForGreen, green *)
    match goal with H : waitForGreen_iter _ = Some _ |- _ =>
      unfold waitForGreen_iter in H; repeat case_match; simplify_eq
    end.
    at_thread v.
  }
  all: apply (dispatch_effect _ _ Hq) in Hstep
         as [[-> _]|(v & p & w' & _ & _ & _ & _ & Hpend & ->)];
       [done|cbn [store threads trace set_store set_inter fulfil_all shared]].
  all: try done.
  intros v0 p0 f Hl Hf. simpl.
  destruct (decide (f = p)) as [->|Hne];
    [apply lookup_insert_eq|rewrite lookup_insert_ne by done; eauto].
Qed.

Lemma reachable_inv s :
  reachable ticks_per_ms s -> sys_queue_inv s /\ threads_inv s.
Proof.
  intros (draw0 & now0 & acts & Hrun).
  assert (Hinit : sys_queue_inv (System_init draw0 now0)
                  /\ threads_inv (System_init draw0 now0)).
  { split; [by apply queue_inv_init|].
    split; simpl; try done; intros v p ?; by rewrite lookup_empty. }
  revert Hrun Hinit. generalize (System_init draw0 now0).
  induction acts as [|a acts IH]; intros s0 Hrun [Hq Ht]; simpl in Hrun.
  - by simplify_eq.
  - destruct (step ticks_per_ms a s0) as [s1|] eqn:Hstep; [|done].
    apply (IH s1 Hrun). split.
    + by eapply step_queue_inv.
    + by eapply step_threads_inv.
Qed.

Lemma step_log_inv a s s' :
  log_inv (store s) -> step ticks_per_ms a s = Some s' -> log_inv (store s').
Proof.
  intros [Hnd Hrdy] Hstep. step_cases Hstep; try (by split).
  - match goal with H : new_promise _ = _ |- _ =>
      pose proof (new_promise_fresh (store s)) as Hfresh;
      unfold new_promise in H, Hfresh; simplify_eq/=
    end.
    split; [done|]. simpl. intros q Hq.
    rewrite lookup_insert_ne; [by apply Hrdy|].
    intros <-. apply Hrdy in Hq. congruence.
  - cbn [step] in Hstep.
    destruct (processVehicleQueue_iter (inter s) (store s))
      as [[i' st']| |] eqn:Hp; simplify_eq.
    unfold processVehicleQueue_iter in Hp.
    destruct (bool_decide _ && negb _); [|by simplify_eq].
    destruct (permitEntryToFirstInQueue _ _) as [[w' st1]| |] eqn:Hperm;
      simplify_eq.
    apply permit_inv in Hperm as (v & p & _ & _ & Hpend & ->).
    split; simpl.
    + apply NoDup_app. split; [done|]. split; [|apply NoDup_singleton].
      intros q Hq ->%list_elem_of_singleton. apply Hrdy in Hq. congruence.
    + intros q [Hq| ->%list_elem_of_singleton]%elem_of_app.
      * destruct (decide (q = p)) as [->|Hne];
          [apply lookup_insert_eq|rewrite lookup_insert_ne by done; auto].
      * apply lookup_insert_eq.
Qed.

Lemma step_fifo_inv a s s' :
  sys_queue_inv s -> fifo_inv s ->
  step ticks_per_ms a s = Some s' -> fifo_inv s'.
Proof.
  intros Hq (granted & Hpushed & Hlog) Hstep.
  step_cases Hstep.
  all: try (exists granted; split; [exact Hpushed|exact Hlog]).
  - match goal with H : new_promise _ = _ |- _ =>
      unfold new_promise in H; simplify_eq/=
    end.
    exists granted. split; [|done].
    cbn [trace inter goto set_store set_inter set_waitingVehicles
         _waitingVehicles pushBack _vehicles _promises app pushed].
    rewrite Hpushed, <- app_assoc. f_equal.
    rewrite zip_with_app by apply Hq. done.
  - apply (dispatch_effect _ _ Hq) in Hstep
      as [[-> _]|(v & p & w' & _ & _ & Hv & Hp & _ & ->)];
      [by exists granted|].
    exists (granted ++ [(v, p)]). rewrite Hv, Hp in Hpushed.
    cbn [inter store trace set_store set_inter set_waitingVehicles
         _waitingVehicles fulfil_all set_value_log foldl].
    split; [by rewrite <- app_assoc|].
    by rewrite fmap_app, Hlog.
Qed.

(** X17. In every reachable state the promises fulfilled so far are, in the
    order of their fulfilment, the first ones pushed, each fulfilled
    once, and the queue holds the entries pushed after them, in the
    order of pushing. *)
Theorem grants_follow_push_order s :
  reachable ticks_per_ms s ->
  NoDup (set_value_log (store s))
  /\ exists granted : list (Vehicle * promise),
      pushed (trace s)
      = granted ++ zip (_vehicles (_waitingVehicles (inter s)))
                       (_promises (_waitingVehicles (inter s)))
      /\ granted.*2 = set_value_log (store s).
Proof.
  intros (draw0 & now0 & acts & Hrun).
  assert (Hinit : sys_queue_inv (System_init draw0 now0)
                  /\ log_inv (store (System_init draw0 now0))
                  /\ fifo_inv (System_init draw0 now0)).
  { split; [by apply queue_inv_init|]. split.
    - split; simpl; [constructor|]. intros p Hp. by apply elem_of_nil in Hp.
    - by exists []. }
  revert Hrun Hinit. generalize (System_init draw0 now0).
  induction acts as [|a acts IH]; intros s0 Hrun (Hq & Hl & Hf); simpl in Hrun.
  - simplify_eq. split; [apply Hl|exact Hf].
  - destruct (step ticks_per_ms a s0) as [s1|] eqn:Hstep; [|done].
    apply (IH s1 Hrun). split; [by eapply step_queue_inv|].
    split; [by eapply step_log_inv|by eapply step_fifo_inv].
Qed.

(** What a step other than a turn of the dispatch loop does to the
    blocked flag and to the log of grants. *)
Lemma step_frame a s s' :
  step ticks_per_ms a s = Some s' ->
  a <> Dispatch ->
  set_value_log (store s') = set_value_log (store s)
  /\ (_isBlocked (inter s') = _isBlocked (inter s)
      \/ (exists v, a = Depart v) /\ _isBlocked (inter s') = false).
Proof.
  intros Hstep Hne. step_cases Hstep; try done.
  all: try (split; [reflexivity|left; reflexivity]).
  - match goal with H : new_promise _ = _ |- _ =>
      unfold new_promise in H; simplify_eq/=
    end.
    split; [reflexivity|left; reflexivity].
  - split; [reflexivity|right]. split; [by exists v|reflexivity].
Qed.


End SystemFacts.


(** C2. In every reachable state, whatever step is taken: the blocked
    flag goes from false to true only in a turn of the dispatch loop,
    which then finds the queue non-empty and grants the ticket at its
    front; it goes from true to false only in a departure notification;
    a turn of the dispatch loop that finds the flag true changes
    nothing, so it grants nothing; and a ticket is granted by no other
    step than a turn of the dispatch loop that takes the flag from false
    to true.  The dispatch loop and the departure notification can
    always take their step. *)
Theorem C2_blocked_flag_discipline (ticks_per_ms : Z) (a : action)
    (s s' : System) (leaving : Vehicle) :
  reachable ticks_per_ms s ->
  step ticks_per_ms a s = Some s' ->
  (_isBlocked (inter s) = false -> _isBlocked (inter s') = true ->
   a = Dispatch
   /\ _vehicles (_waitingVehicles (inter s)) <> []
   /\ exists p, head (_promises (_waitingVehicles (inter s))) = Some p
               /\ set_value_log (store s') = set_value_log (store s) ++ [p])
  /\ (_isBlocked (inter s) = true -> _isBlocked (inter s') = false ->
      exists v, a = Depart v)
  /\ (_isBlocked (inter s) = true -> a = Dispatch -> s' = s)
  /\ (set_value_log (store s') <> set_value_log (store s) ->
      a = Dispatch /\ _isBlocked (inter s) = false
      /\ _isBlocked (inter s') = true)
  /\ is_Some (step ticks_per_ms Dispatch s)
  /\ is_Some (step ticks_per_ms (Depart leaving) s).
Proof.
  intros [Hq _]%reachable_inv Hstep.
  assert (Hprog : is_Some (step ticks_per_ms Dispatch s)).
  { cbn [step].
    destruct (processVehicleQueue_iter_cases _ _ Hq)
      as [(_ & _ & w' & st' & _ & ->)|[_ ->]]; eauto. }
  assert (Hcases :
    a = Dispatch \/
    (set_value_log (store s') = set_value_log (store s)
     /\ (_isBlocked (inter s') = _isBlocked (inter s)
         \/ (exists v, a = Depart v) /\ _isBlocked (inter s') = false))).
  { destruct a; [right|right|left|right|right]; try done;
      by eapply step_frame. }
  destruct Hcases as [->|(Hlog & Hb)].
  - apply (dispatch_effect _ _ _ Hq) in Hstep
      as [[-> Hcond]|(v & p & w' & Hb & Hsz & Hv & Hp & _ & ->)].
    + split_and!; try done; congruence.
    + cbn [inter store set_store set_inter setIsBlocked set_waitingVehicles
           _isBlocked fulfil_all set_value_log foldl].
      split_and!; try done; try congruence.
      intros _ _. split_and!; [done|by rewrite Hv|].
      exists p. by rewrite Hp.
  - split_and!; try done.
    + intros Hf Ht. destruct Hb as [Hb|[_ Hb]]; congruence.
    + intros Ht Hf. destruct Hb as [Hb|[Hv _]]; [congruence|done].
    + intros Ht ->.
      apply (dispatch_effect _ _ _ Hq) in Hstep as [[-> _]|(? & ? & ? & ? & _)];
        [done|congruence].
Qed.

Lemma C2_blocked_flag_witness :
  _isBlocked (inter demo_state) = false
  /\ step 1000000 Dispatch demo_state = Some demo_granted
  /\ _isBlocked (inter demo_granted) = true
  /\ set_value_log (store demo_granted) = [0%nat].
Proof.
  assert (Hreach : reachable 1000000 demo_state).
  { exists 6000, 0, demo_acts. vm_compute. reflexivity. }
  assert (Hstep : step 1000000 Dispatch demo_state = Some demo_granted).
  { vm_compute. reflexivity. }
  assert (Hf : _isBlocked (inter demo_state) = false)
    by (vm_compute; reflexivity).
  assert (Ht : _isBlocked (inter demo_granted) = true)
    by (vm_compute; reflexivity).
  destruct (C2_blocked_flag_discipline 1000000 Dispatch demo_state
              demo_granted 1%nat Hreach Hstep) as (H1 & _).
  destruct (H1 Hf Ht) as (_ & _ & p & Hhead & Hlog).
  vm_compute in Hhead. injection Hhead as <-.
  split; [exact Hf|]. split; [exact Hstep|]. split; [exact Ht|].
  rewrite Hlog. vm_compute. reflexivity.
Defined.

(** The green that lets a vehicle through may be a buffered one: here
    the light went green and red again before the vehicle arrived; the
    vehicle reads red, receives the old green and returns while the
    current phase is red. *)
Remark buffered_green_is_accepted :
  run 1000000 demo_stale_acts (System_init 6000 0) = Some demo_stale
  /\ threads demo_stale !! 1%nat = Some (Finished 0%nat green)
  /\ trace demo_stale
     = [EvReturn 1%nat; EvReceive 1%nat green; EvPhase 1%nat red;
        EvWaitDone 1%nat; EvPush 1%nat 0%nat; EvCall 1%nat]
  /\ _trafficLight (inter demo_stale) = light red [red].
Proof. vm_compute. repeat split. Qed.

(** * Further properties *)

(** ** The running system, over several steps *)

Section SystemMore.
Variable ticks_per_ms : Z.

Ltac by_step H :=
  match type of H with
  | step _ ?a ?s = Some _ =>
      destruct a as [v|v| |v|inp]; cbn [step] in H;
      [ destruct (threads s !! v) as [[]|] eqn:Hpc; simplify_eq
      | destruct (threads s !! v) as [p|] eqn:Hpc; [|done];
        destruct p; cbn [vehicle_step] in H;
        repeat case_match; simplify_eq
      | repeat case_match; simplify_eq
      | simplify_eq
      | destruct (cycleThroughPhases_iter ticks_per_ms inp
                    (_trafficLight (inter s), sched s))
          as [[tl' loc'] tg] eqn:Hiter; simplify_eq ]
  end.

Lemma run_app acts1 acts2 s :
  run ticks_per_ms (acts1 ++ acts2) s
  = run ticks_per_ms acts1 s ≫= run ticks_per_ms acts2.
Proof.
  revert s. induction acts1 as [|a acts1 IH]; intros s; simpl; [done|].
  destruct (step ticks_per_ms a s); simpl; auto.
Qed.

Lemma reachable_step a s s' :
  reachable ticks_per_ms s -> step ticks_per_ms a s = Some s' ->
  reachable ticks_per_ms s'.
Proof.
  intros (d & n & acts & Hrun) Hstep. exists d, n, (acts ++ [a]).
  rewrite run_app, Hrun. simpl. by rewrite Hstep.
Qed.

(** A step that is not a departure notice grants at most one ticket,
    and none when the flag is set; it leaves the flag set. *)
Lemma step_without_departure a s s' :
  reachable ticks_per_ms s ->
  is_depart a = false ->
  step ticks_per_ms a s = Some s' ->
  (_isBlocked (inter s) = true ->
   _isBlocked (inter s') = true
   /\ set_value_log (store s') = set_value_log (store s))
  /\ (_isBlocked (inter s) = false ->
      (_isBlocked (inter s') = false
       /\ set_value_log (store s') = set_value_log (store s))
      \/ (_isBlocked (inter s') = true
          /\ exists p, set_value_log (store s') = set_value_log (store s) ++ [p])).
Proof.
  intros [Hq _]%reachable_inv Hnd Hstep.
  assert (Hcases : a = Dispatch \/ a <> Dispatch)
    by (destruct a; [right|right|left|right|right]; done).
  destruct Hcases as [->|Hne].
  - apply (dispatch_effect _ _ _ Hq) in Hstep
      as [[-> _]|(v & p & w' & Hb & _ & _ & _ & _ & ->)].
    + split; [done|]. intros Hb. by left.
    + split; [congruence|]. intros _. right. split; [done|]. by exists p.
  - destruct (step_frame _ _ _ _ Hstep Hne) as [Hlog [Hb|[[v ->] _]]]; [|done].
    rewrite Hlog, Hb. split; [done|]. intros Hf. by left.
Qed.

(** X1. While no departure is notified, at most one ticket is granted,
    and none if the intersection is blocked; once blocked it stays
    blocked. *)
Theorem no_second_grant_before_departure acts : forall s s',
  reachable ticks_per_ms s ->
  forallb (fun a => negb (is_depart a)) acts = true ->
  run ticks_per_ms acts s = Some s' ->
  (_isBlocked (inter s) = true ->
   _isBlocked (inter s') = true
   /\ set_value_log (store s') = set_value_log (store s))
  /\ (_isBlocked (inter s) = false ->
      set_value_log (store s') = set_value_log (store s)
      \/ (_isBlocked (inter s') = true
          /\ exists p, set_value_log (store s') = set_value_log (store s) ++ [p])).
Proof.
  induction acts as [|a acts IH]; intros s s' Hreach Hnd Hrun; simpl in *.
  - simplify_eq. split; [done|]. by left.
  - apply andb_prop in Hnd as [Ha Hnd]. apply negb_true_iff in Ha.
    destruct (step ticks_per_ms a s) as [s1|] eqn:Hstep; [|done].
    pose proof (reachable_step _ _ _ Hreach Hstep) as Hreach1.
    destruct (step_without_departure _ _ _ Hreach Ha Hstep) as [Ht Hf].
    destruct (IH s1 s' Hreach1 Hnd Hrun) as [IHt IHf].
    split.
    + intros Hb. destruct (Ht Hb) as [Hb1 Hlog1].
      destruct (IHt Hb1) as [Hb' Hlog']. split; [done|congruence].
    + intros Hb. destruct (Hf Hb) as [[Hb1 Hlog1]|[Hb1 [p Hlog1]]].
      * destruct (IHf Hb1) as [Hlog'|[Hb' [q Hlog']]].
        -- left. congruence.
        -- right. split; [done|]. exists q. congruence.
      * destruct (IHt Hb1) as [Hb' Hlog']. right. split; [done|].
        exists p. congruence.
Qed.

(** A departure notice and then a turn of the dispatch loop, on a
    queue that is not empty. *)
Lemma depart_then_dispatch s (v : Vehicle) :
  reachable ticks_per_ms s ->
  getSize (_waitingVehicles (inter s)) > 0 ->
  exists s1 s2 front p,
    step ticks_per_ms (Depart v) s = Some s1
    /\ _isBlocked (inter s1) = false
    /\ step ticks_per_ms Dispatch s1 = Some s2
    /\ _isBlocked (inter s2) = true
    /\ _vehicles (_waitingVehicles (inter s))
       = front :: _vehicles (_waitingVehicles (inter s2))
    /\ _promises (_waitingVehicles (inter s))
       = p :: _promises (_waitingVehicles (inter s2))
    /\ set_value_log (store s2) = set_value_log (store s) ++ [p]
    /\ shared (store s2) !! p = Some true.
Proof.
  intros Hreach Hsize.
  set (s1 := set_inter (vehicleHasLeft v (inter s)) s).
  assert (Hstep1 : step ticks_per_ms (Depart v) s = Some s1) by done.
  pose proof (reachable_step _ _ _ Hreach Hstep1) as Hreach1.
  destruct (reachable_inv _ _ Hreach1) as [Hq1 _].
  destruct (processVehicleQueue_iter_cases _ _ Hq1)
    as [(_ & _ & w' & st' & Hp & E)|[[Hn|Hb] _]]; [|done|done].
  apply permit_inv in Hp as (front & p & Hv & Hps & Hpend & ->).
  eexists s1, _, front, p.
  split; [done|]. split; [done|]. split.
  { cbn [step]. rewrite E. reflexivity. }
  simpl. split_and!; try done. apply lookup_insert_eq.
Qed.

(** X2. [vehicleHasLeft] does not look at its argument: a notice in the
    name of any vehicle, in any state, lets the next turn of the
    dispatch loop grant the front ticket. *)
Theorem any_departure_unblocks s (v : Vehicle) :
  reachable ticks_per_ms s ->
  getSize (_waitingVehicles (inter s)) > 0 ->
  exists s1 s2 front p,
    step ticks_per_ms (Depart v) s = Some s1
    /\ _isBlocked (inter s1) = false
    /\ step ticks_per_ms Dispatch s1 = Some s2
    /\ _isBlocked (inter s2) = true
    /\ _vehicles (_waitingVehicles (inter s))
       = front :: _vehicles (_waitingVehicles (inter s2))
    /\ _promises (_waitingVehicles (inter s))
       = p :: _promises (_waitingVehicles (inter s2))
    /\ set_value_log (store s2) = set_value_log (store s) ++ [p]
    /\ shared (store s2) !! p = Some true.
Proof. apply depart_then_dispatch. Qed.

(** X18. The queue drains: from any reachable state, a departure
    notice followed by a turn of the dispatch loop, once for each
    waiting vehicle, grants all the tickets of the queue, front first,
    and leaves the queue empty. *)
Theorem queue_drains (n : nat) : forall s (v : Vehicle),
  reachable ticks_per_ms s ->
  length (_vehicles (_waitingVehicles (inter s))) = n ->
  Z.of_nat n <= INT_MAX ->
  exists s',
    run ticks_per_ms (mjoin (replicate n [Depart v; Dispatch])) s = Some s'
    /\ _vehicles (_waitingVehicles (inter s')) = []
    /\ _promises (_waitingVehicles (inter s')) = []
    /\ set_value_log (store s')
       = set_value_log (store s) ++ _promises (_waitingVehicles (inter s)).
Proof.
  induction n as [|n IH]; intros s v Hreach Hlen Hfit.
  - exists s. destruct (reachable_inv _ _ Hreach) as [[Hl _ _ _] _].
    rewrite Hlen in Hl.
    destruct (_vehicles (_waitingVehicles (inter s))); [|done].
    destruct (_promises (_waitingVehicles (inter s))); [|done].
    split_and!; try done. by rewrite app_nil_r.
  - assert (Hsize : getSize (_waitingVehicles (inter s)) > 0).
    { unfold getSize. rewrite Hlen, int_of_size_small by done. lia. }
    destruct (depart_then_dispatch s v Hreach Hsize)
      as (s1 & s2 & front & p & H1 & _ & H2 & _ & Hv & Hp & Hlog & _).
    pose proof (reachable_step _ _ _ (reachable_step _ _ _ Hreach H1) H2)
      as Hreach2.
    destruct (IH s2 v Hreach2) as (s' & Hrun & Hve & Hpe & Hlog');
      [rewrite Hv in Hlen; simpl in Hlen; lia|lia|].
    exists s'. cbn [replicate mjoin list_join app run].
    rewrite H1, H2. split; [exact Hrun|]. split; [done|]. split; [done|].
    rewrite Hlog', Hlog, Hp, <- app_assoc. done.
Qed.

Lemma step_mtx_inv a s s' :
  mtx_inv s -> step ticks_per_ms a s = Some s' -> mtx_inv s'.
Proof.
  intros Hinv Hstep.
  assert (Hown : forall v p, threads s !! v = Some p -> holds_mtx p = true ->
                             mtx s = Some v).
  { intros v p Hp Hh. apply Hinv. eauto. }
  assert (Hfree : forall v p, mtx s = None -> threads s !! v = Some p ->
                              holds_mtx p = false).
  { intros v p Hm Hp. destruct (holds_mtx p) eqn:Hh; [|done].
    rewrite (Hown v p Hp Hh) in Hm. done. }
  assert (Hsole : forall v v' p, mtx s = Some v -> v' <> v ->
                                 threads s !! v' = Some p -> holds_mtx p = false).
  { intros v v' p Hm Hne Hp. destruct (holds_mtx p) eqn:Hh; [|done].
    rewrite (Hown v' p Hp Hh) in Hm. congruence. }
  by_step Hstep.
  all: try exact Hinv.
  all: intros v0; cbn [mtx threads goto set_mtx set_store set_inter set_sched].
  all: try (pose proof (Hown _ _ Hpc eq_refl) as Hm).
  all: destruct (decide (v0 = v)) as [->|Hne];
       [ rewrite lookup_insert_eq | rewrite lookup_insert_ne by done ].
  all: try (rewrite <- (Hinv v0); done).
  all: split; [intros Hm0|intros (q0 & Hp0 & Hh0)]; simplify_eq/=; eauto.
  all: try (rewrite (Hsole _ _ _ Hm Hne Hp0) in Hh0; done).
  all: try (erewrite Hfree in Hh0; eauto; done).
  all: try (apply Hinv in Hm0 as (q1 & Hp1 & Hh1); simplify_eq/=; done).
  all: try (rewrite Hm0 in *; apply Hinv in Hm as (q1 & Hp1 & Hh1); simplify_eq/=; done).
Qed.

Lemma reachable_mtx_inv s : reachable ticks_per_ms s -> mtx_inv s.
Proof.
  intros (draw0 & now0 & acts & Hrun).
  assert (Hinit : mtx_inv (System_init draw0 now0)).
  { intros v. simpl. split; [done|]. intros (p & Hp & _).
    by rewrite lookup_empty in Hp. }
  revert Hrun Hinit. generalize (System_init draw0 now0).
  induction acts as [|a acts IH]; intros s0 Hrun Hinv; simpl in Hrun.
  - by simplify_eq.
  - destruct (step ticks_per_ms a s0) as [s1|] eqn:Hstep; [|done].
    apply (IH s1 Hrun). by eapply step_mtx_inv.
Qed.

(** X3. Two threads are never both between a lock of [_mtx] and the
    unlock after it; so at most one vehicle is inside
    [waitForGreen], the only consumer of the channel. *)
Theorem one_vehicle_past_the_lock s (v1 v2 : Vehicle) (p1 p2 : pc) :
  reachable ticks_per_ms s ->
  threads s !! v1 = Some p1 -> holds_mtx p1 = true ->
  threads s !! v2 = Some p2 -> holds_mtx p2 = true ->
  v1 = v2 /\ mtx s = Some v1.
Proof.
  intros Hinv%reachable_mtx_inv H1 Hh1 H2 Hh2.
  assert (Hm1 : mtx s = Some v1) by (apply Hinv; eauto).
  assert (Hm2 : mtx s = Some v2) by (apply Hinv; eauto).
  split; [congruence|done].
Qed.

(** X4. A vehicle that waits for green on the empty channel keeps
    [_mtx]: it cannot move, and no thread whose next statement locks
    [_mtx] can: a vehicle that arrives is not enqueued, a vehicle whose
    ticket was granted does not reach the light check. *)
Theorem waiting_for_green_holds_up_the_others s (v v' : Vehicle)
    (ftr : promise) (p' : pc) :
  reachable ticks_per_ms s ->
  threads s !! v = Some (InWaitForGreen ftr) ->
  MessageQueue._queue (_messageQueue (_trafficLight (inter s))) = [] ->
  threads s !! v' = Some p' -> wants_mtx p' = true ->
  step ticks_per_ms (Run v) s = None
  /\ step ticks_per_ms (Run v') s = None
  /\ mtx s = Some v.
Proof.
  intros Hinv%reachable_mtx_inv Hv Hq Hv' Hw.
  assert (Hm : mtx s = Some v) by (apply Hinv; eauto).
  split_and!; [| |done].
  - cbn [step]. rewrite Hv. cbn [vehicle_step].
    unfold waitForGreen_iter, MessageQueue.receive. by rewrite Hq.
  - cbn [step]. rewrite Hv'. destruct p'; try done; simpl; by rewrite Hm.
Qed.
End SystemMore.

(** ** Admission first, then the light *)

Section Admission.
Variable ticks_per_ms : Z.

















End Admission.


(** The two orders, in the queue itself. *)
Remark light_timing_decides_the_order :
  (run 1000000 (demo_green_early ++ [Run 3%nat]) demo_held_up
   ≫= fun s => Some (_vehicles (_waitingVehicles (inter s))))
  = Some [2%nat; 3%nat]
  /\ (run 1000000 demo_green_late demo_held_up
      ≫= fun s => Some (_vehicles (_waitingVehicles (inter s))))
     = Some [3%nat; 2%nat].
Proof. vm_compute. split; reflexivity. Qed.



(** X5. Once the scheduler has toggled and nothing was received, the
    light gate of [addVehicleToQueue] lets a vehicle through without
    waiting for a toggle, whatever the current phase: on green by the
    read of the phase, on red by the green that is buffered. *)
Theorem gate_is_open_after_unobserved_toggles (ticks_per_ms : Z)
    (inps : list CycleInput) (loc : CycleLocals) :
  (cycleThroughPhases_run ticks_per_ms inps (TrafficLight_new, loc)).2 <> [] ->
  exists received tl',
    check_then_wait
      (cycleThroughPhases_run ticks_per_ms inps (TrafficLight_new, loc)).1.1
    = Returned received tl'
    /\ _currentPhase tl'
       = _currentPhase
           (cycleThroughPhases_run ticks_per_ms inps (TrafficLight_new, loc)).1.1
    /\ (_currentPhase tl' = green -> received = [])
    /\ (_currentPhase tl' = red -> received = [green]).
Proof.
  intros Hne.
  destruct (cycle_alternates ticks_per_ms inps TrafficLight_new loc)
    as (Hsent & Hq & Hph).
  destruct (cycleThroughPhases_run ticks_per_ms inps (TrafficLight_new, loc))
    as [[tl loc'] tgs]. simpl in *.
  destruct tl as [cur [q]]. simpl in *. subst q.
  destruct tgs as [|tg tgs]; [done|]. rewrite Hsent. simpl.
  unfold check_then_wait, getCurrentPhase. simpl.
  destruct cur.
  - rewrite bool_decide_eq_true_2 by done.
    eexists _, _. unfold waitForGreen. simpl. split; [reflexivity|].
    simpl. split; [done|]. split; [done|done].
  - rewrite bool_decide_eq_false_2 by done.
    eexists _, _. split; [reflexivity|]. simpl. done.
Qed.

(** X6. [queryStreets] after [addStreet]: the answer is the one before,
    followed by the new street unless it has the id of the asking
    one. *)
Theorem queryStreets_after_addStreet (incoming street : Street)
    (i : Intersection) :
  (queryStreets incoming (addStreet street i)).1
  = (queryStreets incoming i).1
    ++ (if bool_decide (getID incoming <> getID street) then [street] else []).
Proof.
  unfold queryStreets, addStreet. simpl.
  rewrite !queryStreets_loop_filter. simpl.
  rewrite filter_app. f_equal.
  rewrite filter_cons, filter_nil.
  case_bool_decide; case_decide; done.
Qed.

(** With distinct ids, asking from a connected street leaves one street
    out. *)
Lemma queryStreets_one_less (incoming : Street) (i : Intersection) :
  NoDup (getID <$> _streets i) ->
  incoming ∈ _streets i ->
  length (_streets i) = S (length (fst (queryStreets incoming i))).
Proof.
  intros Hnd Hin. unfold queryStreets. simpl.
  rewrite queryStreets_loop_filter. simpl.
  induction (_streets i) as [|it l IH]; [by apply elem_of_nil in Hin|].
  rewrite fmap_cons in Hnd. apply NoDup_cons in Hnd as [Hnotin Hnd].
  rewrite filter_cons. cbn [length].
  apply elem_of_cons in Hin as [->|Hin].
  - rewrite decide_False by (intros H; by apply H). f_equal.
    clear IH.
    assert (Hall : Forall (fun x => getID it <> getID x) l).
    { apply Forall_forall. intros x Hx E. apply Hnotin.
      rewrite E. apply list_elem_of_fmap. by exists x. }
    clear Hnotin Hnd. induction Hall as [|x l Hx Hall IH]; [done|].
    rewrite filter_cons, decide_True by done. simpl. by rewrite IH.
  - rewrite decide_True.
    + cbn [length]. f_equal. by apply IH.
    + intros E. apply Hnotin. rewrite <- E.
      apply list_elem_of_fmap. by exists incoming.
Qed.

Lemma queryStreets_not_incoming (incoming it : Street) (i : Intersection) :
  it ∈ fst (queryStreets incoming i) -> getID it <> getID incoming.
Proof.
  unfold queryStreets. simpl. rewrite queryStreets_loop_filter. simpl.
  intros [H _]%list_elem_of_filter E. by apply H.
Qed.

(** X7. The answer never holds a street with the id of the asking one;
    when the ids of the connected streets are distinct and the asking
    street is one of them, the answer is all the others: one street
    less. *)
Theorem queryStreets_leaves_out_incoming (incoming : Street) (i : Intersection) :
  NoDup (getID <$> _streets i) ->
  incoming ∈ _streets i ->
  (incoming ∉ fst (queryStreets incoming i))
  /\ (forall it, it ∈ fst (queryStreets incoming i) -> getID it <> getID incoming)
  /\ length (_streets i) = S (length (fst (queryStreets incoming i))).
Proof.
  intros Hnd Hin. split; [|split].
  - intros H. by apply queryStreets_not_incoming in H.
  - intros it. apply queryStreets_not_incoming.
  - by apply queryStreets_one_less.
Qed.

(** ** Instances of the properties above *)

Lemma no_second_grant_witness :
  _isBlocked (inter demo_granted) = true
  /\ set_value_log (store demo_queued) = set_value_log (store demo_granted).
Proof.
  assert (Hreach : reachable 1000000 demo_granted).
  { exists 6000, 0, (demo_acts ++ [Dispatch]). vm_compute. reflexivity. }
  assert (Hb : _isBlocked (inter demo_granted) = true)
    by (vm_compute; reflexivity).
  split; [exact Hb|].
  refine (proj2 (proj1 (no_second_grant_before_departure 1000000
    [Call 2%nat; Run 2%nat; Run 2%nat; Run 2%nat; Dispatch]
    demo_granted demo_queued Hreach _ _) Hb)).
  - reflexivity.
  - vm_compute. reflexivity.
Defined.

Lemma any_departure_witness :
  threads demo_queued !! 99%nat = None
  /\ _isBlocked (inter demo_queued) = true
  /\ exists s1 s2 front p,
       step 1000000 (Depart 99%nat) demo_queued = Some s1
       /\ _isBlocked (inter s1) = false
       /\ step 1000000 Dispatch s1 = Some s2
       /\ _isBlocked (inter s2) = true
       /\ _vehicles (_waitingVehicles (inter demo_queued))
          = front :: _vehicles (_waitingVehicles (inter s2))
       /\ _promises (_waitingVehicles (inter demo_queued))
          = p :: _promises (_waitingVehicles (inter s2))
       /\ set_value_log (store s2) = set_value_log (store demo_queued) ++ [p]
       /\ shared (store s2) !! p = Some true.
Proof.
  split; [vm_compute; reflexivity|]. split; [vm_compute; reflexivity|].
  apply (any_departure_unblocks 1000000 demo_queued 99%nat).
  - exists 6000, 0, demo_queued_acts. vm_compute. reflexivity.
  - vm_compute. reflexivity.
Defined.

Lemma one_vehicle_past_the_lock_witness :
  threads demo_locked !! 1%nat = Some AtUnlock1
  /\ mtx demo_locked = Some 1%nat.
Proof.
  assert (Hpc : threads demo_locked !! 1%nat = Some AtUnlock1)
    by (vm_compute; reflexivity).
  split; [exact Hpc|].
  refine (proj2 (one_vehicle_past_the_lock 1000000 demo_locked 1%nat 1%nat
                   AtUnlock1 AtUnlock1 _ Hpc eq_refl Hpc eq_refl)).
  exists 6000, 0, [Call 1%nat; Run 1%nat]. vm_compute. reflexivity.
Defined.

Lemma waiting_for_green_witness :
  threads demo_waiting !! 1%nat = Some (InWaitForGreen 0%nat)
  /\ threads demo_waiting !! 2%nat = Some AtLock1
  /\ step 1000000 (Run 2%nat) demo_waiting = None.
Proof.
  assert (H1 : threads demo_waiting !! 1%nat = Some (InWaitForGreen 0%nat))
    by (vm_compute; reflexivity).
  assert (H2 : threads demo_waiting !! 2%nat = Some AtLock1)
    by (vm_compute; reflexivity).
  split; [exact H1|]. split; [exact H2|].
  refine (proj1 (proj2 (waiting_for_green_holds_up_the_others 1000000
    demo_waiting 1%nat 2%nat 0%nat AtLock1 _ H1 _ H2 eq_refl))).
  - exists 6000, 0, demo_waiting_acts. vm_compute. reflexivity.
  - vm_compute. reflexivity.
Defined.

Lemma gate_is_open_witness :
  exists received tl',
    check_then_wait (light red [green; red]) = Returned received tl'
    /\ _currentPhase tl' = red
    /\ received = [green].
Proof.
  destruct (gate_is_open_after_unobserved_toggles 1000000
    [ {| now_check := 6001040000; now_reset := 6001050000; next_draw := 4000 |};
      {| now_check := 10001060000; now_reset := 10001070000; next_draw := 4000 |} ]
    (cycleThroughPhases_init 6000 0))
    as (received & tl' & Hret & Hph & _ & Hred).
  - vm_compute. discriminate.
  - exists received, tl'. split; [exact Hret|].
    assert (Hcur : _currentPhase tl' = red) by (rewrite Hph; vm_compute; reflexivity).
    split; [exact Hcur|exact (Hred Hcur)].
Defined.

Lemma queryStreets_leaves_out_witness :
  length (_streets (addStreets [ {| street_id := 1 |}; {| street_id := 2 |} ]
                      Intersection_new))
  = S (length (fst (queryStreets {| street_id := 1 |}
                      (addStreets [ {| street_id := 1 |}; {| street_id := 2 |} ]
                         Intersection_new)))).
Proof.
  refine (proj2 (proj2 (queryStreets_leaves_out_incoming {| street_id := 1 |}
    (addStreets [ {| street_id := 1 |}; {| street_id := 2 |} ] Intersection_new)
    _ _))).
  - apply (bool_decide_unpack _). vm_compute. exact I.
  - vm_compute. left.
Defined.

Lemma grants_follow_push_order_witness :
  NoDup (set_value_log (store demo_queued))
  /\ exists granted : list (Vehicle * promise),
      pushed (trace demo_queued)
      = granted ++ zip (_vehicles (_waitingVehicles (inter demo_queued)))
                       (_promises (_waitingVehicles (inter demo_queued)))
      /\ granted.*2 = set_value_log (store demo_queued).
Proof.
  apply (grants_follow_push_order 1000000 demo_queued).
  exists 6000, 0, demo_queued_acts. vm_compute. reflexivity.
Defined.

(** ** Setting up a city *)


Section SetupFacts.
Variable street_ident : nat -> Z.

Lemma for_size_t_done {St : Type} fuel i bound (body : Z -> St -> result St) s :
  bound <= i -> for_size_t fuel i bound body s = Return s.
Proof.
  intros H. destruct fuel; simpl; rewrite bool_decide_eq_false_2; auto; lia.
Qed.

Lemma for_size_t_step {St : Type} fuel i bound (body : Z -> St -> result St) s :
  i < bound ->
  for_size_t (S fuel) i bound body s
  = body i s ≫= for_size_t fuel (i + 1) bound body.
Proof. intros H. simpl. by rewrite bool_decide_eq_true_2. Qed.

Lemma at_Some {A : Type} (v : list A) (i : Z) :
  0 <= i < Z.of_nat (length v) -> exists x, at_ v i = Return x /\ v !! Z.to_nat i = Some x.
Proof.
  intros H. unfold at_.
  destruct (v !! Z.to_nat i) as [x|] eqn:E; [eauto|].
  apply lookup_ge_None in E. lia.
Qed.

Lemma at_None {A : Type} (v : list A) (i : Z) :
  Z.of_nat (length v) <= i -> at_ v i = Raise out_of_range.
Proof.
  intros H. unfold at_. rewrite (proj2 (lookup_ge_None v (Z.to_nat i))); [done|lia].
Qed.

Lemma at_lookup {A : Type} (v : list A) (i : Z) x :
  v !! Z.to_nat i = Some x -> at_ v i = Return x.
Proof. intros H. unfold at_. by rewrite H. Qed.

Lemma setCurrentStreet_at_ok nv k c v :
  vehicles c !! Z.to_nat nv = Some v ->
  0 <= k < Z.of_nat (length (streets c)) ->
  setCurrentStreet_at nv k c
  = Return (set_vehicles
              (<[Z.to_nat nv := {| _currStreet := Some (Z.to_nat k);
                                   _currDestination := _currDestination v |}]>
                 (vehicles c)) c).
Proof.
  intros Hv Hk. unfold setCurrentStreet_at.
  rewrite (at_lookup _ _ _ Hv). simpl.
  destruct (at_Some (streets c) k Hk) as (so & -> & _). done.
Qed.

Lemma setCurrentDestination_at_ok nv j c v :
  vehicles c !! Z.to_nat nv = Some v ->
  0 <= j < Z.of_nat (length (intersections c)) ->
  setCurrentDestination_at nv j c
  = Return (set_vehicles
              (<[Z.to_nat nv := {| _currStreet := _currStreet v;
                                   _currDestination := Some (Z.to_nat j) |}]>
                 (vehicles c)) c).
Proof.
  intros Hv Hj. unfold setCurrentDestination_at.
  rewrite (at_lookup _ _ _ Hv). simpl.
  destruct (at_Some (intersections c) j Hj) as (n & -> & _). done.
Qed.

Lemma vehicle_body_ok dest nv c :
  Z.of_nat (length (vehicles c)) = nv ->
  nv < Z.of_nat (length (streets c)) ->
  0 <= dest nv < Z.of_nat (length (intersections c)) ->
  vehicle_body dest nv c
  = Return (set_vehicles (vehicles c ++ [vehicle_on nv (dest nv)]) c).
Proof.
  intros Hlen Hs Hd. unfold vehicle_body.
  assert (Hnv : Z.to_nat nv = length (vehicles c)) by lia.
  rewrite (setCurrentStreet_at_ok nv nv (push_vehicle c) new_vehicle).
  2: { simpl. rewrite Hnv, lookup_app_r, Nat.sub_diag by lia. done. }
  2: { simpl. lia. }
  simpl.
  erewrite setCurrentDestination_at_ok.
  2: { simpl. rewrite ?Hnv. apply list_lookup_insert_eq.
       rewrite length_app. simpl. lia. }
  2: { simpl. lia. }
  f_equal. unfold set_vehicles. simpl. f_equal.
  unfold vehicle_on. rewrite !Hnv, list_insert_insert_eq.
  rewrite insert_app_r_alt, Nat.sub_diag by lia. done.
Qed.

Lemma vehicle_body_no_street dest nv c :
  Z.of_nat (length (vehicles c)) = nv ->
  Z.of_nat (length (streets c)) <= nv ->
  vehicle_body dest nv c = Raise out_of_range.
Proof.
  intros Hlen Hs. unfold vehicle_body, setCurrentStreet_at.
  assert (Hnv : Z.to_nat nv = length (vehicles c)) by lia.
  rewrite (at_lookup _ _ new_vehicle).
  2: { simpl. rewrite Hnv, lookup_app_r, Nat.sub_diag by lia. done. }
  simpl. rewrite at_None by (simpl; lia). done.
Qed.

Lemma setCurrentDestination_at_bad nv j c v :
  vehicles c !! Z.to_nat nv = Some v ->
  Z.of_nat (length (intersections c)) <= j ->
  setCurrentDestination_at nv j c = Raise out_of_range.
Proof.
  intros Hv Hj. unfold setCurrentDestination_at.
  rewrite (at_lookup _ _ _ Hv). simpl. by rewrite at_None.
Qed.

Lemma vehicle_body_no_destination dest nv c :
  Z.of_nat (length (vehicles c)) = nv ->
  nv < Z.of_nat (length (streets c)) ->
  Z.of_nat (length (intersections c)) <= dest nv ->
  vehicle_body dest nv c = Raise out_of_range.
Proof.
  intros Hlen Hs Hd. unfold vehicle_body.
  assert (Hnv : Z.to_nat nv = length (vehicles c)) by lia.
  rewrite (setCurrentStreet_at_ok nv nv (push_vehicle c) new_vehicle).
  2: { simpl. rewrite Hnv, lookup_app_r, Nat.sub_diag by lia. done. }
  2: { simpl. lia. }
  simpl. eapply setCurrentDestination_at_bad; [|simpl; lia].
  simpl. rewrite ?Hnv. apply list_lookup_insert_eq.
  rewrite length_app. simpl. lia.
Qed.

(** The loop over the vehicles when every vehicle finds its street and
    its destination. *)
Lemma vehicles_loop_ok dest (n : nat) : forall fuel i bound c,
  Z.of_nat (length (vehicles c)) = i ->
  bound = i + Z.of_nat n ->
  bound <= Z.of_nat (length (streets c)) ->
  (forall k, i <= k < bound ->
             0 <= dest k < Z.of_nat (length (intersections c))) ->
  (n <= fuel)%nat ->
  for_size_t fuel i bound (vehicle_body dest) c
  = Return (set_vehicles
              (vehicles c
               ++ ((fun k => vehicle_on k (dest k)) <$> seqZ i (Z.of_nat n))) c).
Proof.
  induction n as [|n IH]; intros fuel i bound c Hlen Hb Hs Hd Hf.
  - rewrite for_size_t_done by lia. simpl. rewrite app_nil_r.
    by destruct c.
  - destruct fuel as [|fuel]; [lia|].
    rewrite for_size_t_step by lia.
    rewrite vehicle_body_ok; [|lia|lia|apply Hd; lia]. simpl.
    rewrite (IH fuel (i + 1) bound).
    + f_equal. unfold set_vehicles. simpl. f_equal.
      rewrite <- app_assoc. f_equal.
      rewrite Nat2Z.inj_succ, (seqZ_cons i), Z.pred_succ by lia.
      by replace (Z.succ i) with (i + 1) by lia.
    + simpl. rewrite length_app. simpl. lia.
    + lia.
    + simpl. lia.
    + intros k Hk. simpl. apply Hd. lia.
    + lia.
Qed.

(** The loop over the vehicles when the vehicle at position [limit]
    finds no street or no destination. *)
Lemma vehicles_loop_throws dest (n : nat) : forall fuel i limit bound c,
  Z.of_nat (length (vehicles c)) = i ->
  limit = i + Z.of_nat n ->
  limit < bound ->
  (forall k, i <= k < limit ->
             k < Z.of_nat (length (streets c))
             /\ 0 <= dest k < Z.of_nat (length (intersections c))) ->
  Z.of_nat (length (streets c)) <= limit
  \/ Z.of_nat (length (intersections c)) <= dest limit ->
  (n < fuel)%nat ->
  for_size_t fuel i bound (vehicle_body dest) c = Raise out_of_range.
Proof.
  induction n as [|n IH]; intros fuel i limit bound c Hlen Hl Hb Hok Hbad Hf.
  - destruct fuel as [|fuel]; [lia|].
    rewrite for_size_t_step by lia.
    assert (limit = i) as -> by lia.
    destruct (decide (Z.of_nat (length (streets c)) <= i)).
    + by rewrite vehicle_body_no_street.
    + rewrite vehicle_body_no_destination; [done|done|lia|]. 
      destruct Hbad; [lia|done].
  - destruct fuel as [|fuel]; [lia|].
    rewrite for_size_t_step by lia.
    rewrite vehicle_body_ok; [|done|apply Hok; lia|apply Hok; lia]. simpl.
    apply (IH fuel (i + 1) limit bound).
    + simpl. rewrite length_app. simpl. lia.
    + lia.
    + lia.
    + intros k Hk. simpl. apply Hok. lia.
    + simpl. done.
    + lia.
Qed.

Lemma for_size_t_fuel {St : Type} (body : Z -> St -> result St) (n : nat) :
  forall fuel i bound s,
  n = Z.to_nat (bound - i) -> (n <= fuel)%nat ->
  for_size_t fuel i bound body s = for_size_t n i bound body s.
Proof.
  induction n as [|n IH]; intros fuel i bound s Hn Hf.
  - rewrite !for_size_t_done by lia. done.
  - destruct fuel as [|fuel]; [lia|].
    rewrite !for_size_t_step by lia.
    destruct (body i s); simpl; try done. apply IH; lia.
Qed.

Lemma size_t_of_int_small n : 0 <= n < 2 ^ 64 -> size_t_of_int n = n.
Proof. intros H. unfold size_t_of_int. by rewrite Z.mod_small. Qed.

Lemma size_t_of_int_negative n :
  - 2 ^ 31 <= n < 0 -> size_t_of_int n = n + 2 ^ 64.
Proof.
  intros H. unfold size_t_of_int.
  symmetry. apply (Z.mod_unique_pos _ _ (-1)); lia.
Qed.

Ltac head_compute :=
  match goal with
  | |- context [mbind ?k ?m] =>
      let r := eval vm_compute in m in
      change (mbind k m) with (mbind k r);
      cbn beta iota delta [mbind result_bind]
  end.

Lemma createTrafficObjects_Paris_shape (fuel : nat) (nVehicles : Z) :
  (9 <= fuel)%nat -> 0 <= nVehicles <= 8 ->
  exists c,
    createTrafficObjects_Paris street_ident fuel nVehicles City_empty = Return c
    /\ filename c = "../data/paris.jpg"
    /\ length (intersections c) = 9%nat
    /\ length (streets c) = 8%nat
    /\ (forall k, (k < 8)%nat ->
          streets c !! k
          = Some {| street_ref := street_made street_ident k;
                    shared_owned := true;
                    _interIn := Some k; _interOut := Some 8%nat |}
          /\ streets_at k c = [street_made street_ident k])
    /\ streets_at 8 c = street_made street_ident <$> seq 0 8
    /\ vehicles c = (fun k => vehicle_on k 8) <$> seqZ 0 nVehicles.
Proof.
  intros Hfuel Hn. unfold createTrafficObjects_Paris. cbv zeta.
  change (fun nv c => c ← setCurrentStreet_at nv nv (push_vehicle c);
                      setCurrentDestination_at nv 8 c)
    with (vehicle_body (fun _ : Z => 8)).
  rewrite (for_size_t_fuel _ 9 fuel 0 (size_t_of_int 9)) by (done || lia).
  do 10 head_compute.
  rewrite (for_size_t_fuel _ 8 fuel 0 (size_t_of_int 8)) by (done || lia).
  head_compute.
  rewrite size_t_of_int_small by lia.
  rewrite (vehicles_loop_ok _ (Z.to_nat nVehicles)); [|done|lia|simpl; lia|simpl; lia|lia].
  eexists. split; [reflexivity|]. rewrite Z2Nat.id by lia.
  split_and!; try reflexivity.
  intros k Hk.
  do 8 (destruct k as [|k]; [split; reflexivity|]). lia.
Qed.

(** The vehicles asked for must find a street each. *)
Lemma createTrafficObjects_Paris_throws (fuel : nat) (nVehicles : Z) :
  (9 <= fuel)%nat ->
  - 2 ^ 31 <= nVehicles < 2 ^ 31 ->
  nVehicles < 0 \/ 8 < nVehicles ->
  createTrafficObjects_Paris street_ident fuel nVehicles City_empty
  = Raise out_of_range.
Proof.
  intros Hfuel Hint Hn. unfold createTrafficObjects_Paris. cbv zeta.
  change (fun nv c => c ← setCurrentStreet_at nv nv (push_vehicle c);
                      setCurrentDestination_at nv 8 c)
    with (vehicle_body (fun _ : Z => 8)).
  rewrite (for_size_t_fuel _ 9 fuel 0 (size_t_of_int 9)) by (done || lia).
  do 10 head_compute.
  rewrite (for_size_t_fuel _ 8 fuel 0 (size_t_of_int 8)) by (done || lia).
  head_compute.
  apply (vehicles_loop_throws _ 8 fuel 0 8); try done; try (simpl; lia).
  destruct Hn.
  - rewrite size_t_of_int_negative; lia.
  - rewrite size_t_of_int_small; lia.
Qed.

Lemma createTrafficObjects_NYC_shape (fuel : nat) (nVehicles : Z) :
  (7 <= fuel)%nat -> 0 <= nVehicles <= 6 ->
  exists c,
    createTrafficObjects_NYC street_ident fuel nVehicles City_empty = Return c
    /\ filename c = "../data/nyc.jpg"
    /\ length (intersections c) = 6%nat
    /\ _interIn <$> streets c = Some <$> [0; 1; 2; 3; 4; 5; 0]%nat
    /\ _interOut <$> streets c = Some <$> [1; 2; 3; 4; 5; 0; 3]%nat
    /\ street_ref <$> streets c = street_made street_ident <$> seq 0 7
    /\ (fun j => streets_at j c) <$> seq 0 6
       = fmap (street_made street_ident)
           <$> [[0; 5; 6]; [0; 1]; [1; 2]; [2; 3; 6]; [3; 4]; [4; 5]]%nat
    /\ vehicles c = (fun k => vehicle_on k k) <$> seqZ 0 nVehicles.
Proof.
  intros Hfuel Hn. unfold createTrafficObjects_NYC. cbv zeta.
  change (fun nv c => c ← setCurrentStreet_at nv nv (push_vehicle c);
                      setCurrentDestination_at nv nv c)
    with (vehicle_body (fun nv : Z => nv)).
  rewrite (for_size_t_fuel _ 6 fuel 0 (size_t_of_int 6)) by (done || lia).
  do 7 head_compute.
  rewrite (for_size_t_fuel _ 7 fuel 0 (size_t_of_int 7)) by (done || lia).
  do 15 head_compute.
  rewrite size_t_of_int_small by lia.
  rewrite (vehicles_loop_ok _ (Z.to_nat nVehicles)); [|done|lia|simpl; lia|simpl; lia|lia].
  eexists. split; [reflexivity|]. rewrite Z2Nat.id by lia.
  split_and!; reflexivity.
Qed.

Lemma createTrafficObjects_NYC_throws (fuel : nat) (nVehicles : Z) :
  (7 <= fuel)%nat ->
  - 2 ^ 31 <= nVehicles < 2 ^ 31 ->
  nVehicles < 0 \/ 6 < nVehicles ->
  createTrafficObjects_NYC street_ident fuel nVehicles City_empty
  = Raise out_of_range.
Proof.
  intros Hfuel Hint Hn. unfold createTrafficObjects_NYC. cbv zeta.
  change (fun nv c => c ← setCurrentStreet_at nv nv (push_vehicle c);
                      setCurrentDestination_at nv nv c)
    with (vehicle_body (fun nv : Z => nv)).
  rewrite (for_size_t_fuel _ 6 fuel 0 (size_t_of_int 6)) by (done || lia).
  do 7 head_compute.
  rewrite (for_size_t_fuel _ 7 fuel 0 (size_t_of_int 7)) by (done || lia).
  do 15 head_compute.
  apply (vehicles_loop_throws _ 6 fuel 0 6); try done; try (simpl; lia).
  destruct Hn.
  - rewrite size_t_of_int_negative; lia.
  - rewrite size_t_of_int_small; lia.
Qed.
End SetupFacts.

(** ** The command line *)

Lemma digit_value_char c d :
  digit_value c = Some d -> isspace c = false /\ c <> "-"%char /\ c <> "+"%char.
Proof.
  unfold digit_value, isspace. case_bool_decide as H; [|done]. intros _.
  split_and!.
  - apply orb_false_intro; apply bool_decide_eq_false_2; lia.
  - intros ->. destruct H as [H _]. exact (H eq_refl).
  - intros ->. destruct H as [H _]. exact (H eq_refl).
Qed.

Lemma read_digits_acc (l : Decimal.uint) : forall (acc : positive) junk,
  no_digit_ahead junk ->
  read_digits (NilEmpty.string_of_uint l +:+ junk) (Some (Z.pos acc))
  = Some (Z.pos (Pos.of_uint_acc l acc)).
Proof.
  induction l; intros acc junk Hj;
    cbn [NilEmpty.string_of_uint];
    try (change (String ?c ?s +:+ ?j) with (String c (s +:+ j)));
    cbn [read_digits];
    try (change (digit_value _) with (Some 0) || change (digit_value _) with (Some 1)
         || change (digit_value _) with (Some 2) || change (digit_value _) with (Some 3)
         || change (digit_value _) with (Some 4) || change (digit_value _) with (Some 5)
         || change (digit_value _) with (Some 6) || change (digit_value _) with (Some 7)
         || change (digit_value _) with (Some 8) || change (digit_value _) with (Some 9));
    cbn [default from_option id read_digits Pos.of_uint_acc].
  1: { destruct junk as [|c junk]; [done|]. simpl in *. by rewrite Hj. }
  all: match goal with
       | |- read_digits _ (Some ?e) = Some (Z.pos (Pos.of_uint_acc _ ?a)) =>
           replace e with (Z.pos a) by lia; by apply IHl
       end.
Qed.

Lemma read_digits_uint (l : Decimal.uint) : forall junk,
  l <> Decimal.Nil ->
  no_digit_ahead junk ->
  read_digits (NilEmpty.string_of_uint l +:+ junk) None
  = Some (Z.of_N (Pos.of_uint l))
  /\ read_digits (NilEmpty.string_of_uint l +:+ junk) (Some 0)
     = Some (Z.of_N (Pos.of_uint l)).
Proof.
  induction l; intros junk Hl Hj; [done|..];
    cbn [NilEmpty.string_of_uint];
    try (change (String ?c ?s +:+ ?j) with (String c (s +:+ j)));
    cbn [read_digits];
    try (change (digit_value _) with (Some 0) || change (digit_value _) with (Some 1)
         || change (digit_value _) with (Some 2) || change (digit_value _) with (Some 3)
         || change (digit_value _) with (Some 4) || change (digit_value _) with (Some 5)
         || change (digit_value _) with (Some 6) || change (digit_value _) with (Some 7)
         || change (digit_value _) with (Some 8) || change (digit_value _) with (Some 9));
    cbn [default from_option id read_digits Pos.of_uint Z.of_N].
  1: { change (10 * 0 + 0) with 0.
       destruct l; try (destruct (IHl junk) as [_ ->]; done).
       simpl. destruct junk as [|c junk]; [done|]. simpl in *. by rewrite Hj. }
  all: match goal with
       | |- read_digits _ (Some ?e) = _ /\ _ =>
           let v := eval vm_compute in e in change e with v
       end;
       split; by apply read_digits_acc.
Qed.

Lemma digit_head (l : Decimal.uint) junk :
  l <> Decimal.Nil ->
  exists c d rest, NilEmpty.string_of_uint l +:+ junk = String c rest
                   /\ digit_value c = Some d.
Proof. destruct l; [done|..]; intros _; simpl; eauto. Qed.

Lemma skip_spaces_app sp s :
  all_spaces sp = true -> skip_spaces (sp +:+ s) = skip_spaces s.
Proof.
  induction sp as [|c sp IH]; [done|]. simpl.
  intros [-> H]%andb_prop. by apply IH.
Qed.

Lemma to_uint_nonnil p : Pos.to_uint p <> Decimal.Nil.
Proof.
  intros E. pose proof (DecimalPos.Unsigned.of_to p) as H.
  rewrite E in H. done.
Qed.

(** What [stoi] makes of a decimal numeral, with white space before it
    and anything but a digit after it. *)
Lemma stoi_decimal (z : Z) (sp junk : string) :
  all_spaces sp = true -> no_digit_ahead junk ->
  stoi (sp +:+ decimal z +:+ junk)
  = if bool_decide (INT_MIN <= z <= INT_MAX) then Return z else Raise out_of_range.
Proof.
  intros Hsp Hj. unfold stoi. rewrite skip_spaces_app by done.
  unfold decimal. destruct z as [|p|p]; cbn [Z.to_int NilZero.string_of_int].
  - simpl. destruct junk as [|c junk]; simpl in *; [done|by rewrite Hj].
  - pose proof (to_uint_nonnil p) as Hnn.
    replace (NilZero.string_of_uint (Pos.to_uint p))
      with (NilEmpty.string_of_uint (Pos.to_uint p))
      by (by destruct (Pos.to_uint p)).
    destruct (digit_head (Pos.to_uint p) junk Hnn) as (c & d & rest & E & Hd).
    destruct (digit_value_char c d Hd) as (Hs & Hm & Hpl).
    destruct (read_digits_uint (Pos.to_uint p) junk Hnn Hj) as [Hr _].
    rewrite E in *. cbn [skip_spaces]. rewrite Hs.
    assert (Hsign : (let '(negative, digits) :=
                       match String c rest with
                       | String "-" r => (true, r)
                       | String "+" r => (false, r)
                       | _ => (false, String c rest)
                       end in (negative, digits)) = (false, String c rest)).
    { destruct c as [[] [] [] [] [] [] [] []]; try done. }
    destruct c as [[] [] [] [] [] [] [] []]; try done;
      cbv beta iota zeta; rewrite Hr; rewrite DecimalPos.Unsigned.of_to; done.
  - pose proof (to_uint_nonnil p) as Hnn.
    replace (NilZero.string_of_uint (Pos.to_uint p))
      with (NilEmpty.string_of_uint (Pos.to_uint p))
      by (by destruct (Pos.to_uint p)).
    destruct (read_digits_uint (Pos.to_uint p) junk Hnn Hj) as [Hr _].
    change (String "-" ?s +:+ junk) with (String "-" (s +:+ junk)).
    cbn [skip_spaces]. change (isspace "-") with false. cbv beta iota zeta.
    rewrite Hr, DecimalPos.Unsigned.of_to. done.
Qed.


Lemma stoi_of_flag (s : string) : stoi ("--" +:+ s) = Raise invalid_argument.
Proof. reflexivity. Qed.

Lemma is_flag_false arg :
  is_flag arg = false ->
  String.eqb arg "--city" = false /\ String.eqb arg "--output" = false
  /\ String.eqb arg "--duration" = false /\ String.eqb arg "--vehicles" = false
  /\ String.eqb arg "--help" = false.
Proof.
  unfold is_flag. intros H.
  repeat (apply orb_false_elim in H as [H ?]). done.
Qed.

Lemma parse_args_skip arg rest o :
  is_flag arg = false -> parse_args (arg :: rest) o = parse_args rest o.
Proof.
  intros (H1 & H2 & H3 & H4 & H5)%is_flag_false.
  cbn [parse_args]. rewrite H1, H2, H3, H4, H5. by destruct rest.
Qed.

(** X13. Arguments that are none of the five options are passed over,
    and so is an option at the very end that waits for a value: the
    options stay as they were, nothing is reported. *)
Theorem unknown_arguments_are_ignored (args : list string) (last : string)
    (o : Options) :
  forallb (fun a => negb (is_flag a)) args = true ->
  last <> "--help" ->
  parse_args args o = Return (Proceed o)
  /\ parse_args (args ++ [last]) o = Return (Proceed o).
Proof.
  intros Hargs Hlast.
  assert (Hl : parse_args [last] o = Return (Proceed o)).
  { cbn [parse_args]. destruct (String.eqb_spec last "--help"); done. }
  induction args as [|a args IH]; [done|].
  simpl in Hargs. apply andb_prop in Hargs as [Ha Hargs].
  apply negb_true_iff in Ha. specialize (IH Hargs) as [IH1 IH2].
  split.
  - by rewrite parse_args_skip.
  - rewrite <- app_comm_cons. by rewrite parse_args_skip.
Qed.

(** X14. The four options with their values are read back as given: the
    names are taken as they are, also when they look like options; the
    numbers are read from their decimal numerals, white space before
    and anything but a digit after them being let through. *)
Theorem command_line_is_read_back (city out sp1 junk1 sp2 junk2 : string)
    (d v : Z) (o0 : Options) :
  INT_MIN <= d <= INT_MAX -> INT_MIN <= v <= INT_MAX ->
  all_spaces sp1 = true -> all_spaces sp2 = true ->
  no_digit_ahead junk1 -> no_digit_ahead junk2 ->
  parse_args ["--city"; city; "--output"; out;
              "--duration"; sp1 +:+ decimal d +:+ junk1;
              "--vehicles"; sp2 +:+ decimal v +:+ junk2] o0
  = Return (Proceed {| cityMap := city; outputVideo := out;
                       simulationDuration := d; nVehicles := v |}).
Proof.
  intros Hd Hv Hs1 Hs2 Hj1 Hj2.
  cbn [parse_args]. cbn [String.eqb Ascii.eqb Bool.eqb].
  rewrite !stoi_decimal by done.
  rewrite !bool_decide_eq_true_2 by done. reflexivity.
Qed.

(** X15. A number that cannot be read ends [main] by an exception,
    whatever follows, [--help] included: an option where the number
    should be, [invalid_argument]; a numeral beyond [int],
    [out_of_range]. *)
Theorem bad_number_ends_main (s : string) (z : Z) (rest : list string)
    (o : Options) :
  ~ INT_MIN <= z <= INT_MAX ->
  parse_args ("--duration" :: ("--" +:+ s) :: rest) o = Raise invalid_argument
  /\ parse_args ("--vehicles" :: ("--" +:+ s) :: rest) o = Raise invalid_argument
  /\ parse_args ("--duration" :: decimal z :: rest) o = Raise out_of_range
  /\ parse_args ("--vehicles" :: decimal z :: rest) o = Raise out_of_range.
Proof.
  intros Hz.
  assert (Hdec : stoi (decimal z) = Raise out_of_range).
  { assert (Happ : forall t : string, t +:+ "" = t)
      by (induction t as [|c t IH]; [done|];
          change (String c t +:+ "") with (String c (t +:+ "")); by rewrite IH).
    pose proof (stoi_decimal z "" "" eq_refl I) as H.
    rewrite Happ in H. change ("" +:+ decimal z) with (decimal z) in H.
    by rewrite H, bool_decide_eq_false_2. }
  cbn [parse_args]. cbn [String.eqb Ascii.eqb Bool.eqb].
  rewrite stoi_of_flag, Hdec. done.
Qed.

(** ** The two cities *)

Lemma made_ids_distinct (street_ident : nat -> Z) (bound : nat) (ks : list nat) :
  (forall a b, (a < bound)%nat -> (b < bound)%nat ->
               street_ident a = street_ident b -> a = b) ->
  Forall (fun k => (k < bound)%nat) ks ->
  NoDup ks ->
  NoDup (getID <$> (street_made street_ident <$> ks)).
Proof.
  intros Hinj Hks Hnd. rewrite <- list_fmap_compose.
  apply NoDup_fmap_2_strong; [|done].
  intros a b Ha Hb E. rewrite Forall_forall in Hks.
  apply Hinj; [by apply Hks|by apply Hks|exact E].
Qed.

(** X8. Paris, for up to eight vehicles: nine intersections and eight
    streets; street [k] runs from the outer intersection [k] to the
    central intersection 8 and is the only street registered at
    intersection [k]; the eight are registered at the centre in the
    order of their making; vehicle [k] stands on street [k], bound for
    the centre. *)
Theorem Paris_is_a_star (street_ident : nat -> Z) (fuel : nat) (nVehicles : Z) :
  (9 <= fuel)%nat -> 0 <= nVehicles <= 8 ->
  exists c,
    createTrafficObjects_Paris street_ident fuel nVehicles City_empty = Return c
    /\ filename c = "../data/paris.jpg"
    /\ length (intersections c) = 9%nat
    /\ length (streets c) = 8%nat
    /\ (forall k, (k < 8)%nat ->
          streets c !! k
          = Some {| street_ref := street_made street_ident k;
                    shared_owned := true;
                    _interIn := Some k; _interOut := Some 8%nat |}
          /\ streets_at k c = [street_made street_ident k])
    /\ streets_at 8 c = street_made street_ident <$> seq 0 8
    /\ vehicles c = (fun k => vehicle_on k 8) <$> seqZ 0 nVehicles.
Proof. apply createTrafficObjects_Paris_shape. Qed.

(** X9. In Paris every outer intersection is a dead end: asked by its
    only street, [queryStreets] answers with no street.  At the centre,
    when the ids of the streets are distinct, the answer to each street
    is the seven others. *)
Theorem Paris_routes (street_ident : nat -> Z) (fuel : nat) (nVehicles : Z)
    (k : nat) :
  (9 <= fuel)%nat -> 0 <= nVehicles <= 8 -> (k < 8)%nat ->
  (forall a b, (a < 8)%nat -> (b < 8)%nat ->
               street_ident a = street_ident b -> a = b) ->
  exists c,
    createTrafficObjects_Paris street_ident fuel nVehicles City_empty = Return c
    /\ fst (queryStreets (street_made street_ident k) (junction_at k c)) = []
    /\ length (fst (queryStreets (street_made street_ident k) (junction_at 8 c)))
       = 7%nat
    /\ (street_made street_ident k
        ∉ fst (queryStreets (street_made street_ident k) (junction_at 8 c))).
Proof.
  intros Hfuel Hn Hk Hinj.
  destruct (createTrafficObjects_Paris_shape street_ident fuel nVehicles Hfuel Hn)
    as (c & Hc & _ & _ & _ & Hout & Hcentre & _).
  exists c. split; [exact Hc|].
  destruct (Hout k Hk) as [_ Hat]. unfold streets_at in *.
  split_and!.
  - unfold queryStreets. rewrite Hat. simpl.
    by rewrite bool_decide_eq_false_2 by (intros H; by apply H).
  - pose proof (queryStreets_one_less (street_made street_ident k)
                  (junction_at 8 c)) as Hless.
    rewrite Hcentre in Hless. rewrite length_fmap, length_seq in Hless.
    assert (Hlen : 8%nat = S (length (fst (queryStreets
                     (street_made street_ident k) (junction_at 8 c))))).
    { apply Hless.
      - apply (made_ids_distinct street_ident 8); [done| |apply NoDup_seq].
        apply Forall_forall. intros x Hx%elem_of_seq. lia.
      - apply list_elem_of_fmap. exists k. split; [done|].
        apply elem_of_seq. lia. }
    lia.
  - intros H. by apply queryStreets_not_incoming in H.
Qed.

(** X10. New York, for up to six vehicles: six intersections and seven
    streets; streets 0 to 5 make the ring 0, 1, 2, 3, 4, 5, 0 and
    street 6 joins the intersections 0 and 3; each intersection has its
    streets registered in the order of the calls; vehicle [k] stands on
    street [k], bound for intersection [k]. *)
Theorem NYC_is_a_ring_with_a_chord (street_ident : nat -> Z) (fuel : nat)
    (nVehicles : Z) :
  (7 <= fuel)%nat -> 0 <= nVehicles <= 6 ->
  exists c,
    createTrafficObjects_NYC street_ident fuel nVehicles City_empty = Return c
    /\ filename c = "../data/nyc.jpg"
    /\ length (intersections c) = 6%nat
    /\ _interIn <$> streets c = Some <$> [0; 1; 2; 3; 4; 5; 0]%nat
    /\ _interOut <$> streets c = Some <$> [1; 2; 3; 4; 5; 0; 3]%nat
    /\ street_ref <$> streets c = street_made street_ident <$> seq 0 7
    /\ (fun j => streets_at j c) <$> seq 0 6
       = fmap (street_made street_ident)
           <$> [[0; 5; 6]; [0; 1]; [1; 2]; [2; 3; 6]; [3; 4]; [4; 5]]%nat
    /\ vehicles c = (fun k => vehicle_on k k) <$> seqZ 0 nVehicles.
Proof. apply createTrafficObjects_NYC_shape. Qed.

(** X11. New York has no dead end: when the ids of the streets are
    distinct, [queryStreets] at any intersection, asked by any street
    registered there, answers with at least one street. *)
Theorem NYC_has_no_dead_end (street_ident : nat -> Z) (fuel : nat)
    (nVehicles : Z) (j : nat) (incoming : Street) :
  (7 <= fuel)%nat -> 0 <= nVehicles <= 6 -> (j < 6)%nat ->
  (forall a b, (a < 7)%nat -> (b < 7)%nat ->
               street_ident a = street_ident b -> a = b) ->
  exists c,
    createTrafficObjects_NYC street_ident fuel nVehicles City_empty = Return c
    /\ (incoming ∈ streets_at j c ->
        fst (queryStreets incoming (junction_at j c)) <> []).
Proof.
  intros Hfuel Hn Hj Hinj.
  destruct (createTrafficObjects_NYC_shape street_ident fuel nVehicles Hfuel Hn)
    as (c & Hc & _ & _ & _ & _ & _ & Hat & _).
  exists c. split; [exact Hc|]. intros Hin.
  simpl in Hat. injection Hat as H0 H1 H2 H3 H4 H5.
  unfold streets_at in *.
  assert (Hless : forall ks : list nat,
            _streets (junction_at j c) = street_made street_ident <$> ks ->
            Forall (fun k => (k < 7)%nat) ks -> NoDup ks ->
            (2 <= length ks)%nat ->
            fst (queryStreets incoming (junction_at j c)) <> []).
  { intros ks Hks Hb Hnd Hlen E.
    assert (Hone : length (_streets (junction_at j c)) = 1%nat).
    { rewrite (queryStreets_one_less incoming (junction_at j c)), E; [done| |done].
      rewrite Hks. by apply (made_ids_distinct street_ident 7). }
    rewrite Hks, length_fmap in Hone. lia. }
  assert (Hlt : forall ks : list nat,
            forallb (fun k => Nat.ltb k 7) ks = true ->
            Forall (fun k => (k < 7)%nat) ks).
  { intros ks H. apply Forall_forall. intros x Hx.
    rewrite forallb_forall in H. apply Nat.ltb_lt, H.
    by apply list_elem_of_In. }
  destruct j as [|[|[|[|[|[|j]]]]]]; [| | | | | |lia].
  - apply (Hless [0; 5; 6]%nat); [exact H0|by apply Hlt| |simpl; lia].
    apply (bool_decide_unpack _). vm_compute. exact I.
  - apply (Hless [0; 1]%nat); [exact H1|by apply Hlt| |simpl; lia].
    apply (bool_decide_unpack _). vm_compute. exact I.
  - apply (Hless [1; 2]%nat); [exact H2|by apply Hlt| |simpl; lia].
    apply (bool_decide_unpack _). vm_compute. exact I.
  - apply (Hless [2; 3; 6]%nat); [exact H3|by apply Hlt| |simpl; lia].
    apply (bool_decide_unpack _). vm_compute. exact I.
  - apply (Hless [3; 4]%nat); [exact H4|by apply Hlt| |simpl; lia].
    apply (bool_decide_unpack _). vm_compute. exact I.
  - apply (Hless [4; 5]%nat); [exact H5|by apply Hlt| |simpl; lia].
    apply (bool_decide_unpack _). vm_compute. exact I.
Qed.

(** X12. [main] with a city and a number of vehicles: every city name
    but [nyc] builds Paris; a vehicle needs a street (and in New York
    an intersection) at its own position, so more than eight vehicles
    in Paris, more than six in New York, or a negative number, end
    [main] by [out_of_range]; up to that number the city is built with
    that many vehicles. *)
Theorem vehicles_must_find_a_street (street_ident : nat -> Z) (fuel : nat)
    (city : string) (v : Z) :
  (9 <= fuel)%nat -> INT_MIN <= v <= INT_MAX ->
  let limit := if String.eqb city "nyc" then 6 else 8 in
  (v < 0 \/ limit < v ->
   main_setup street_ident fuel ["--city"; city; "--vehicles"; decimal v]
   = Raise out_of_range)
  /\ (0 <= v <= limit ->
      exists c,
        main_setup street_ident fuel ["--city"; city; "--vehicles"; decimal v]
        = Return (Some ({| cityMap := city;
                           outputVideo := "../data/traffic_simulation.mp4";
                           simulationDuration := 20;
                           nVehicles := v |}, c))
        /\ filename c = (if String.eqb city "nyc" then "../data/nyc.jpg"
                         else "../data/paris.jpg")
        /\ Z.of_nat (length (vehicles c)) = v).
Proof.
  intros Hfuel Hv limit.
  assert (Happ : forall t : string, t +:+ "" = t)
    by (induction t as [|c t IH]; [done|];
        change (String c t +:+ "") with (String c (t +:+ "")); by rewrite IH).
  assert (Hstoi : stoi (decimal v) = Return v).
  { pose proof (stoi_decimal v "" "" eq_refl I) as H.
    rewrite Happ in H. change ("" +:+ decimal v) with (decimal v) in H.
    by rewrite H, bool_decide_eq_true_2. }
  assert (Hparse : parse_args ["--city"; city; "--vehicles"; decimal v]
                     Options_default
                   = Return (Proceed {| cityMap := city;
                        outputVideo := "../data/traffic_simulation.mp4";
                        simulationDuration := 20; nVehicles := v |})).
  { cbn [parse_args]. cbn [String.eqb Ascii.eqb Bool.eqb]. by rewrite Hstoi. }
  unfold main_setup. rewrite Hparse.
  cbn [mbind result_bind cityMap nVehicles]. subst limit.
  unfold INT_MIN, INT_MAX in Hv.
  destruct (String.eqb city "nyc"); split.
  - intros Hbad. rewrite createTrafficObjects_NYC_throws; [done|lia|lia|done].
  - intros Hok.
    destruct (createTrafficObjects_NYC_shape street_ident fuel v)
      as (c & -> & Hf & _ & _ & _ & _ & _ & Hveh); [lia|done|].
    exists c. split; [done|]. split; [done|].
    rewrite Hveh, length_fmap, length_seqZ. lia.
  - intros Hbad. rewrite createTrafficObjects_Paris_throws; [done|lia|lia|done].
  - intros Hok.
    destruct (createTrafficObjects_Paris_shape street_ident fuel v)
      as (c & -> & Hf & _ & _ & _ & _ & Hveh); [lia|done|].
    exists c. split; [done|]. split; [done|].
    rewrite Hveh, length_fmap, length_seqZ. lia.
Qed.

(** ** The frame loop *)

Lemma drawTrafficObjects_ok g :
  (3 <= length (_images g))%nat ->
  exists g', drawTrafficObjects g = Return g'
    /\ frames_written g' = S (frames_written g)
    /\ length (_images g') = length (_images g)
    /\ _frameCount g' = _frameCount g /\ _fps g' = _fps g
    /\ _simulationDuration g' = _simulationDuration g
    /\ progress_lines g' = progress_lines g
    /\ writer_opened g' = writer_opened g
    /\ _videoFilename g' = _videoFilename g /\ _bgFilename g' = _bgFilename g
    /\ _headlessMode g' = _headlessMode g.
Proof.
  intros Hlen. unfold drawTrafficObjects.
  destruct (_images g) as [|i0 [|i1 [|i2 l]]] eqn:E; simpl in Hlen; try lia.
  eexists. split; [reflexivity|]. simpl. done.
Qed.

Lemma next_frame_second f fps :
  0 <= f -> 0 < fps ->
  ((f + 1) `rem` fps = 0 -> (f + 1) `quot` fps = f `quot` fps + 1)
  /\ ((f + 1) `rem` fps <> 0 -> (f + 1) `quot` fps = f `quot` fps).
Proof.
  intros Hf Hfps.
  rewrite !Z.quot_div_nonneg, Z.rem_mod_nonneg by lia.
  pose proof (Z.div_mod f fps ltac:(lia)) as E.
  pose proof (Z.mod_pos_bound f fps Hfps) as B.
  pose proof (Z.div_mod (f + 1) fps ltac:(lia)) as E1.
  pose proof (Z.mod_pos_bound (f + 1) fps Hfps) as B1.
  set (q := f / fps) in *. set (r := f mod fps) in *.
  set (q1 := (f + 1) / fps) in *. set (r1 := (f + 1) mod fps) in *.
  clearbody q r q1 r1.
  assert (Hq : q1 = q \/ q1 = q + 1).
  { assert (q <= q1) by nia. assert (q1 <= q + 1) by nia. lia. }
  split; intros H.
  - destruct Hq as [->| ->]; [|done]. exfalso. nia.
  - destruct Hq as [->| ->]; [done|]. exfalso. apply H. nia.
Qed.

(** The loop, from any number of frames already counted. *)
Lemma simulate_loop_spec (n : nat) : forall fuel total g,
  Z.of_nat n = total - _frameCount g ->
  0 <= _frameCount g -> 0 < _fps g ->
  (3 <= length (_images g))%nat ->
  (n <= fuel)%nat ->
  exists g',
    simulate_loop fuel total g = Return g'
    /\ _frameCount g' = total
    /\ frames_written g' = (frames_written g + n)%nat
    /\ progress_lines g'
       = progress_lines g
         ++ seconds_done (_frameCount g `quot` _fps g + 1) (total `quot` _fps g)
              (_simulationDuration g)
    /\ _simulationDuration g' = _simulationDuration g
    /\ _fps g' = _fps g
    /\ writer_opened g' = writer_opened g.
Proof.
  induction n as [|n IH]; intros fuel total g Hn Hf Hfps Himg Hfuel.
  - exists g. assert (total = _frameCount g) as -> by lia.
    split.
    { destruct fuel; simpl; rewrite bool_decide_eq_false_2; auto; lia. }
    split_and!; try done; try lia.
    unfold seconds_done.
    replace (_ - _ + 1) with 0 by lia. simpl. by rewrite app_nil_r.
  - destruct fuel as [|fuel]; [lia|].
    cbn [simulate_loop]. rewrite bool_decide_eq_true_2 by lia.
    destruct (drawTrafficObjects_ok g Himg)
      as (g1 & -> & Hw & Hi & Hfc & Hfp & Hd & Hp & Hwo & _).
    cbn [mbind result_bind].
    change (_fps (count_frame g1)) with (_fps g1).
    change (_frameCount (count_frame g1)) with (_frameCount g1 + 1).
    change (_simulationDuration (count_frame g1)) with (_simulationDuration g1).
    rewrite Hfp, Hfc, Hd.
    rewrite bool_decide_eq_false_2 by lia.
    destruct (next_frame_second (_frameCount g) (_fps g) Hf Hfps) as [Hz Hnz].
    assert (Hmono : (_frameCount g + 1) `quot` _fps g <= total `quot` _fps g).
    { rewrite !Z.quot_div_nonneg by lia. apply Z.div_le_mono; lia. }
    case_bool_decide as Hrem.
    + edestruct (IH fuel total
                   (print_progress ((_frameCount g + 1) `quot` _fps g)
                      (_simulationDuration g) (count_frame g1)))
        as (g' & -> & H1 & H2 & H3 & H4 & H5 & H6);
        try (simpl; lia).
      exists g'. split; [done|]. simpl in *.
      split_and!; try lia; try congruence.
      rewrite H3, Hp, Hfp, Hfc, Hd, <- app_assoc. f_equal.
      rewrite (Hz Hrem) in *. unfold seconds_done.
      rewrite (seqZ_cons (_frameCount g `quot` _fps g + 1)) by lia.
      simpl. do 3 f_equal; lia.
    + edestruct (IH fuel total (count_frame g1))
        as (g' & -> & H1 & H2 & H3 & H4 & H5 & H6);
        try (simpl; lia).
      exists g'. split; [done|]. simpl in *.
      split_and!; try lia; try congruence.
      rewrite H3, Hp, Hfp, Hfc, Hd. by rewrite (Hnz Hrem).
Qed.

(** X16. [Graphics::simulate] for the options of [main].  When the
    background cannot be read or the video cannot be opened the process
    exits with status 1, whatever the duration.  Otherwise, for a
    duration whose product with the 10 frames a second is an [int]:
    it draws ten frames for each second of the duration and then
    returns, having printed one progress line after each full second,
    1 to the duration, in order; for a duration of zero or less it
    draws no frame and prints nothing.  For a longer duration, which
    [main] accepts, the product [_simulationDuration * _fps] overflows:
    the behaviour is undefined. *)
Theorem simulate_draws_ten_frames_a_second (fuel : nat) (o : Options)
    (backgroundImg : string) (imread_ok open_ok : bool) :
  (imread_ok && open_ok = false ->
   Graphics_simulate fuel imread_ok open_ok (main_graphics o backgroundImg)
   = Return (Exit 1))
  /\ (imread_ok && open_ok = true ->
      INT_MIN <= simulationDuration o * 10 <= INT_MAX ->
      (Z.to_nat (simulationDuration o * 10) <= fuel)%nat ->
      exists g,
        Graphics_simulate fuel imread_ok open_ok (main_graphics o backgroundImg)
        = Return (GoesOn g)
        /\ frames_written g = Z.to_nat (simulationDuration o * 10)
        /\ _frameCount g = Z.max 0 (simulationDuration o * 10)
        /\ progress_lines g
           = seconds_done 1 (simulationDuration o) (simulationDuration o)
        /\ writer_opened g = true)
  /\ (imread_ok && open_ok = true ->
      ~ INT_MIN <= simulationDuration o * 10 <= INT_MAX ->
      Graphics_simulate fuel imread_ok open_ok (main_graphics o backgroundImg)
      = Undef).
Proof.
  unfold Graphics_simulate, loadBackgroundImg.
  split; [|split].
  - intros Hfail. destruct imread_ok; [|done]. destruct open_ok; done.
  - intros [-> ->]%andb_prop Hint Hfuel. cbn [negb].
    cbn [initializeVideoWriter mbind result_bind].
    unfold initializeVideoWriter.
    change (at_ (_images _) 0) with (Return Image : result image).
    cbn [mbind result_bind negb]. cbv beta iota.
    set (g0 := set_writer_opened true _).
    change (_simulationDuration g0) with (simulationDuration o).
    change (_fps g0) with 10.
    rewrite bool_decide_eq_true_2 by done.
    destruct (decide (0 <= simulationDuration o * 10)) as [Hpos|Hneg].
    + destruct (simulate_loop_spec (Z.to_nat (simulationDuration o * 10))
                  fuel (simulationDuration o * 10) g0)
        as (g & -> & Hfc & Hw & Hp & _ & _ & Hwo);
        [simpl; lia|simpl; lia|simpl; lia|simpl; lia|done|].
      exists g. split; [done|]. simpl in *.
      split_and!; [done|lia| |done].
      rewrite Hp. simpl. f_equal. rewrite Z.quot_mul by lia. done.
    + exists g0. split.
      { destruct fuel; simpl; rewrite bool_decide_eq_false_2; auto; lia. }
      simpl. split_and!; [lia|lia| |done].
      unfold seconds_done. rewrite seqZ_nil by lia. done.
  - intros [-> ->]%andb_prop Hover. cbn [negb].
    unfold initializeVideoWriter.
    change (at_ (_images _) 0) with (Return Image : result image).
    cbn [mbind result_bind negb]. cbv beta iota.
    set (g0 := set_writer_opened true _).
    change (_simulationDuration g0) with (simulationDuration o).
    change (_fps g0) with 10.
    by rewrite bool_decide_eq_false_2.
Qed.

(** ** Instances of the properties of the set-up and of the frame loop *)

Lemma Paris_is_a_star_witness :
  exists c,
    createTrafficObjects_Paris Z.of_nat 9 6 City_empty = Return c
    /\ streets_at 8 c = street_made Z.of_nat <$> seq 0 8
    /\ vehicles c = (fun k => vehicle_on k 8) <$> seqZ 0 6.
Proof.
  destruct (Paris_is_a_star Z.of_nat 9 6) as (c & Hc & _ & _ & _ & _ & H8 & Hv);
    [lia|lia|].
  exists c. split; [exact Hc|]. split; [exact H8|exact Hv].
Defined.

Lemma Paris_routes_witness :
  exists c,
    createTrafficObjects_Paris Z.of_nat 9 6 City_empty = Return c
    /\ fst (queryStreets (street_made Z.of_nat 3) (junction_at 3 c)) = []
    /\ length (fst (queryStreets (street_made Z.of_nat 3) (junction_at 8 c)))
       = 7%nat.
Proof.
  destruct (Paris_routes Z.of_nat 9 6 3) as (c & Hc & Hdead & Hseven & _);
    [lia|lia|lia| |].
  - intros a b _ _. apply Nat2Z.inj.
  - exists c. split; [exact Hc|]. split; [exact Hdead|exact Hseven].
Defined.

Lemma NYC_is_a_ring_witness :
  exists c,
    createTrafficObjects_NYC Z.of_nat 7 6 City_empty = Return c
    /\ _interOut <$> streets c = Some <$> [1; 2; 3; 4; 5; 0; 3]%nat
    /\ vehicles c = (fun k => vehicle_on k k) <$> seqZ 0 6.
Proof.
  destruct (NYC_is_a_ring_with_a_chord Z.of_nat 7 6)
    as (c & Hc & _ & _ & _ & Hout & _ & _ & Hv); [lia|lia|].
  exists c. split; [exact Hc|]. split; [exact Hout|exact Hv].
Defined.

Lemma NYC_has_no_dead_end_witness :
  exists c,
    createTrafficObjects_NYC Z.of_nat 7 6 City_empty = Return c
    /\ fst (queryStreets (street_made Z.of_nat 5) (junction_at 0 c)) <> [].
Proof.
  destruct (NYC_has_no_dead_end Z.of_nat 7 6 0 (street_made Z.of_nat 5))
    as (c & Hc & Hans); [lia|lia|lia| |].
  - intros a b _ _. apply Nat2Z.inj.
  - exists c. split; [exact Hc|]. apply Hans.
    vm_compute in Hc. injection Hc as <-. vm_compute.
    right. left.
Defined.

Lemma vehicles_must_find_a_street_witness :
  main_setup Z.of_nat 9 ["--city"; "paris"; "--vehicles"; decimal 9]
  = Raise out_of_range.
Proof.
  refine (proj1 (vehicles_must_find_a_street Z.of_nat 9 "paris" 9 _ _) _).
  - lia.
  - vm_compute. split; discriminate.
  - right. vm_compute. reflexivity.
Defined.

Lemma unknown_arguments_witness :
  parse_args (["--fast"; "7"] ++ ["--city"]) Options_default
  = Return (Proceed Options_default).
Proof.
  refine (proj2 (unknown_arguments_are_ignored ["--fast"; "7"] "--city"
                   Options_default _ _)).
  - reflexivity.
  - discriminate.
Defined.

Lemma command_line_witness :
  parse_args ["--city"; "--help"; "--output"; "out.mp4";
              "--duration"; " " +:+ decimal 30 +:+ "s";
              "--vehicles"; "" +:+ decimal 4 +:+ ""] Options_default
  = Return (Proceed {| cityMap := "--help"; outputVideo := "out.mp4";
                       simulationDuration := 30; nVehicles := 4 |}).
Proof.
  apply (command_line_is_read_back "--help" "out.mp4" " " "s" "" "" 30 4
           Options_default).
  - vm_compute. split; discriminate.
  - vm_compute. split; discriminate.
  - reflexivity.
  - reflexivity.
  - reflexivity.
  - exact I.
Defined.

Lemma bad_number_witness :
  parse_args ("--duration" :: decimal 4000000000 :: ["--help"]) Options_default
  = Raise out_of_range.
Proof.
  refine (proj1 (proj2 (proj2 (bad_number_ends_main "help" 4000000000
                                 ["--help"] Options_default _)))).
  vm_compute. intros [_ H]. apply H. reflexivity.
Defined.

Lemma simulate_witness :
  (exists g,
     Graphics_simulate 200 true true
       (main_graphics Options_default "../data/paris.jpg")
     = Return (GoesOn g)
     /\ frames_written g = 200%nat
     /\ progress_lines g = seconds_done 1 20 20)
  /\ Graphics_simulate 200 true true
       (main_graphics (set_simulationDuration 300000000 Options_default)
          "../data/paris.jpg")
     = Undef.
Proof.
  split.
  - destruct (proj1 (proj2 (simulate_draws_ten_frames_a_second 200
                              Options_default "../data/paris.jpg" true true))
                eq_refl
                ltac:(vm_compute; split; discriminate)
                ltac:(vm_compute; lia))
      as (g & Hg & Hw & _ & Hp & _).
    exists g. split; [exact Hg|]. split; [exact Hw|exact Hp].
  - apply (proj2 (proj2 (simulate_draws_ten_frames_a_second 200
                           (set_simulationDuration 300000000 Options_default)
                           "../data/paris.jpg" true true)) eq_refl).
    vm_compute. intros [_ H]. apply H. reflexivity.
Defined.

Lemma queue_drains_witness :
  exists s',
    run 1000000 [Depart 99%nat; Dispatch] demo_queued = Some s'
    /\ _vehicles (_waitingVehicles (inter s')) = []
    /\ set_value_log (store s') = [0%nat; 1%nat].
Proof.
  destruct (queue_drains 1000000 1 demo_queued 99%nat)
    as (s' & Hrun & Hv & _ & Hlog).
  - exists 6000, 0, demo_queued_acts. vm_compute. reflexivity.
  - vm_compute. reflexivity.
  - vm_compute. discriminate.
  - exists s'. split; [exact Hrun|]. split; [exact Hv|].
    rewrite Hlog. vm_compute. reflexivity.
Defined.
